(** * address-formatter: the template engine and the rendering pipeline

    A shallow embedding of [dist/cjs/address-formatter.js]: the bundled
    mustache.js engine (scanner, parser, context, writer), the address
    normaliser ([normalizeComponentKeys], [determineCountryCode],
    [applyAliases], [cleanupInput]), the template selector
    ([findTemplate], [chooseTemplateText]), the cleanup pass
    ([cleanupRender]) and [renderTemplate] / [format].

    Conventions.
    - A JavaScript string is the list of its UTF-16 code units.
    - A regular-expression literal of the source is a value of [regex];
      matching is leftmost with the backtracking priority of ECMAScript.
    - Code that throws returns [Throw]; code that mutates an object works
      on a reference into an explicit heap.
    - The per-country data tables and the host functions that depend on the
      Unicode tables or compile a pattern taken from those tables are the
      fields of the classes [Tables] and [Host]. *)

From Stdlib Require Import List NArith ZArith Bool Arith Lia String Ascii DecimalString.
Import ListNotations.

Set Implicit Arguments.
Set Warnings "-register-all".
Set Warnings "-abstract-large-number".

(* ================================================================== *)
(** * JavaScript strings *)
(* ================================================================== *)

Module JsString.

Abbreviation char := N (only parsing).
Abbreviation jstring := (list N).

(** An ASCII literal of the source as a list of code units. *)
Definition js (s : string) : jstring :=
  List.map N_of_ascii (list_ascii_of_string s).

Definition LF : char := 10%N.
Definition nl : jstring := [LF].

Fixpoint jeqb (a b : jstring) : bool :=
  match a, b with
  | [], [] => true
  | x :: a', y :: b' => N.eqb x y && jeqb a' b'
  | _, _ => false
  end.

Definition is_empty (s : jstring) : bool :=
  match s with [] => true | _ => false end.

(** [!!s] for a string. *)
Definition nonempty (s : jstring) : bool := negb (is_empty s).

Definition between (lo hi c : char) : bool := (N.leb lo c && N.leb c hi)%bool.

(** [\s], which is also the set that [trim] strips: WhiteSpace and
    LineTerminator. *)
Definition is_space (c : char) : bool :=
  between 9 13 c || N.eqb c 32 || N.eqb c 160 || N.eqb c 5760
  || between 8192 8202 c || N.eqb c 8232 || N.eqb c 8233 || N.eqb c 8239
  || N.eqb c 8287 || N.eqb c 12288 || N.eqb c 65279.

(** [[\t ]] *)
Definition is_blank (c : char) : bool := N.eqb c 9 || N.eqb c 32.

(** [\d] *)
Definition is_digit (c : char) : bool := between 48 57 c.

Definition is_upper (c : char) : bool := between 65 90 c.
Definition is_lower (c : char) : bool := between 97 122 c.

(** [\w] *)
Definition is_word (c : char) : bool :=
  is_upper c || is_lower c || is_digit c || N.eqb c 95.

Fixpoint dropWhile (p : char -> bool) (s : jstring) : jstring :=
  match s with
  | c :: s' => if p c then dropWhile p s' else s
  | [] => []
  end.

Definition trimStart (s : jstring) : jstring := dropWhile is_space s.
Definition trimEnd (s : jstring) : jstring := rev (dropWhile is_space (rev s)).
Definition trim (s : jstring) : jstring := trimEnd (trimStart s).

Fixpoint join (glue : jstring) (l : list jstring) : jstring :=
  match l with
  | [] => []
  | [x] => x
  | x :: l' => x ++ glue ++ join glue l'
  end.

Fixpoint is_prefix (p s : jstring) : bool :=
  match p, s with
  | [], _ => true
  | x :: p', y :: s' => N.eqb x y && is_prefix p' s'
  | _ :: _, [] => false
  end.

(** [s.indexOf(c) > -1] for a one-character needle. *)
Definition has_char (c : char) (s : jstring) : bool := existsb (N.eqb c) s.

(** [String.prototype.toLowerCase], exact on every code unit whose lower
    case is an ASCII letter (A-Z and the Kelvin sign U+212A); the other code
    units are kept.  The formatter only compares the result with ASCII
    names ([knownComponents], ['new york']), and no other code unit maps
    into ASCII, so these comparisons come out as in the source. *)
Definition lower_char (c : char) : char :=
  if is_upper c then (c + 32)%N else if N.eqb c 8490 then 107%N else c.
Definition toLowerCase (s : jstring) : jstring := List.map lower_char s.

End JsString.
Export JsString.

(* ================================================================== *)
(** * Regular expressions *)
(* ================================================================== *)

Module Regex.

(** The fragment of the pattern language that the literals of the source
    use.  [Chr p] is a character class. *)
Inductive regex :=
| Eps
| Chr (p : char -> bool)
| Seq (a b : regex)
| Alt (a b : regex)
| Star (a : regex)
| Bol
| Eol.

Definition Plus (a : regex) : regex := Seq a (Star a).
Definition Opt (a : regex) : regex := Alt a Eps.
Definition One (c : char) : regex := Chr (N.eqb c).
Fixpoint Lit (s : jstring) : regex :=
  match s with
  | [] => Eps
  | c :: s' => Seq (One c) (Lit s')
  end.
Fixpoint Times (n : nat) (a : regex) : regex :=
  match n with
  | O => Eps
  | S n' => Seq a (Times n' a)
  end.

(** A letter of a pattern under the [i] flag.  Without the [u] flag a code
    unit above 127 never canonicalises to an ASCII one, so only the two
    ASCII cases match. *)
Definition NoCase (c : char) : regex :=
  Chr (fun x => N.ltb x 128 && N.eqb (lower_char x) (lower_char c)).
Fixpoint LitNoCase (s : jstring) : regex :=
  match s with
  | [] => Eps
  | c :: s' => Seq (NoCase c) (LitNoCase s')
  end.

(** A matcher state: the index reached and the rest of the subject. *)
Abbreviation mstate := (nat * list N)%type.

(** Greedy iteration; an iteration that consumes nothing is abandoned. *)
Fixpoint iter_star (step : mstate -> list mstate) (n : nat) (st : mstate)
  : list mstate :=
  match n with
  | O => [st]
  | S n' =>
      flat_map (fun st' => if fst st' =? fst st then []
                           else iter_star step n' st') (step st)
      ++ [st]
  end.

(** All the ways [r] matches at [st], in backtracking order: the head of the
    list is the match the engine reports. *)
Fixpoint rmatch (r : regex) (st : mstate) : list mstate :=
  match r with
  | Eps => [st]
  | Chr p =>
      match snd st with
      | c :: s' => if p c then [(S (fst st), s')] else []
      | [] => []
      end
  | Seq a b => flat_map (rmatch b) (rmatch a st)
  | Alt a b => rmatch a st ++ rmatch b st
  | Star a => iter_star (rmatch a) (S (List.length (snd st))) st
  | Bol => if fst st =? 0 then [st] else []
  | Eol => match snd st with [] => [st] | _ :: _ => [] end
  end.

(** The end of the match anchored at index [q]. *)
Definition match_at (r : regex) (q : nat) (s : jstring) : option nat :=
  match rmatch r (q, s) with
  | (e, _) :: _ => Some e
  | [] => None
  end.

Fixpoint exec_from (r : regex) (q : nat) (s : jstring) : option (nat * nat) :=
  match match_at r q s with
  | Some e => Some (q, e)
  | None =>
      match s with
      | [] => None
      | _ :: s' => exec_from r (S q) s'
      end
  end.

(** [re.exec(s)]: start and end of the leftmost match. *)
Definition re_exec (r : regex) (s : jstring) : option (nat * nat) := exec_from r 0 s.

(** [re.test(s)], [s.match(re) !== null]. *)
Definition re_test (r : regex) (s : jstring) : bool :=
  match re_exec r s with Some _ => true | None => false end.

(** [s.search(re)] *)
Definition re_search (r : regex) (s : jstring) : option nat :=
  match re_exec r s with Some (i, _) => Some i | None => None end.

Definition substring (i e : nat) (s : jstring) : jstring := firstn (e - i) (skipn i s).

(** The text of the leftmost match. *)
Definition matched (r : regex) (s : jstring) : option jstring :=
  match re_exec r s with Some (i, e) => Some (substring i e s) | None => None end.

(** [s.replace(re, d)] for a pattern without the [g] flag and a replacement
    [d] that holds no [$]: only the leftmost match is replaced. *)
Definition re_replace (r : regex) (d : jstring) (s : jstring) : jstring :=
  match re_exec r s with
  | Some (i, e) => firstn i s ++ d ++ skipn e s
  | None => s
  end.

(** The replacement patterns of [String.prototype.replace] for a pattern
    without capture groups: [$$], [$&], [$`] and [$']; any other [$] is
    kept. *)
Fixpoint expand (m before after : jstring) (d : jstring) : jstring :=
  match d with
  | 36%N :: d1 =>
      match d1 with
      | 36%N :: d2 => 36%N :: expand m before after d2
      | 38%N :: d2 => m ++ expand m before after d2
      | 96%N :: d2 => before ++ expand m before after d2
      | 39%N :: d2 => after ++ expand m before after d2
      | _ => 36%N :: expand m before after d1
      end
  | c :: d' => c :: expand m before after d'
  | [] => []
  end.

(** [s.replace(re, d)] with the replacement patterns expanded. *)
Definition re_replace_expand (r : regex) (d : jstring) (s : jstring) : jstring :=
  match re_exec r s with
  | Some (i, e) =>
      firstn i s ++ expand (substring i e s) (firstn i s) (skipn e s) d ++ skipn e s
  | None => s
  end.

(** The loop of [RegExp.prototype[Symbol.split]]: [q] is the index of the
    head of [rest], [piece] is the text since the last separator, [skip]
    counts the code units of a separator still to pass. *)
Fixpoint split_loop (r : regex) (skip q : nat) (piece rest : jstring)
  : list jstring :=
  match rest with
  | [] => [piece]
  | c :: rest' =>
      match skip with
      | S k => split_loop r k (S q) piece rest'
      | O =>
          match match_at r q rest with
          | Some e =>
              if e =? q then
                if is_empty piece then split_loop r 0 (S q) [c] rest'
                else piece :: split_loop r 0 (S q) [c] rest'
              else piece :: split_loop r (e - q - 1) (S q) [] rest'
          | None => split_loop r 0 (S q) (piece ++ [c]) rest'
          end
      end
  end.

(** [s.split(re)] *)
Definition re_split (r : regex) (s : jstring) : list jstring :=
  match s with
  | [] => match match_at r 0 [] with Some _ => [] | None => [[]] end
  | _ :: _ => split_loop r 0 0 [] s
  end.

(** [s.split(sep)] for a string separator that is not empty. *)
Definition split_str (sep : jstring) (s : jstring) : list jstring := re_split (Lit sep) s.

End Regex.
Export Regex.

(* ================================================================== *)
(** * Plain objects *)
(* ================================================================== *)

Module JsObject.

(** The members that every plain object inherits from [Object.prototype]:
    reading one of these names from an object literal [{}] gives a truthy
    value although the object has no such key of its own. *)
Definition proto_names : list jstring :=
  List.map js
    [ "constructor"; "hasOwnProperty"; "isPrototypeOf"; "propertyIsEnumerable";
      "toLocaleString"; "toString"; "valueOf"; "__proto__";
      "__defineGetter__"; "__defineSetter__"; "__lookupGetter__";
      "__lookupSetter__" ]%string.

Definition inherited (k : jstring) : bool := existsb (jeqb k) proto_names.

Definition proto_key : jstring := js "__proto__".

End JsObject.
Export JsObject.

(* ================================================================== *)
(** * The cleanup pass *)
(* ================================================================== *)

Module Cleanup.

Definition comma : char := 44%N.

(** The [replacements] table of [cleanupRender], in source order. *)
Definition replacements : list (regex * jstring) :=
  [ (Seq (Plus (Chr (fun c => is_space c || N.eqb c comma || N.eqb c 125))) Eol, []);
    (Seq Bol (Plus (Chr (fun c => is_space c || N.eqb c comma))), []);
    (Seq Bol (Lit (js "- ")), []);
    (Seq (One comma) (Seq (Star (Chr is_space)) (One comma)), js ", ");
    (Seq (Plus (Chr is_blank)) (Seq (One comma) (Plus (Chr is_blank))), js ", ");
    (Seq (Chr is_blank) (Plus (Chr is_blank)), js " ");
    (Seq (Chr is_blank) (One LF), nl);
    (Seq (One LF) (One comma), nl);
    (Seq (One comma) (Plus (One comma)), js ",");
    (Seq (One comma) (One LF), nl);
    (Seq (One LF) (Plus (Chr is_blank)), nl);
    (Seq (One LF) (Plus (One LF)), nl) ].

(** [!seen[chunk]] is false for a chunk recorded before and for a name that
    the object literal [seen = {}] inherits. *)
Definition seen_has (seen : list jstring) (chunk : jstring) : bool :=
  existsb (jeqb chunk) seen || inherited chunk.

Fixpoint dedupe_loop (modifier : jstring -> jstring) (seen : list jstring)
  (inputChunks : list jstring) : list jstring :=
  match inputChunks with
  | [] => []
  | c :: rest =>
      let chunk := trim c in
      if jeqb (toLowerCase chunk) (js "new york") then
        chunk :: dedupe_loop modifier (chunk :: seen) rest
      else if seen_has seen chunk then dedupe_loop modifier seen rest
      else modifier chunk :: dedupe_loop modifier (chunk :: seen) rest
  end.

Definition dedupe (inputChunks : list jstring) (glue : jstring)
  (modifier : jstring -> jstring) : jstring :=
  join glue (dedupe_loop modifier [] inputChunks).

(** One turn of the loop of [cleanupRender]. *)
Definition cleanup_step (text : jstring) (rep : regex * jstring) : jstring :=
  let text := re_replace (fst rep) (snd rep) text in
  dedupe (split_str nl text) nl
         (fun s => dedupe (split_str (js ", ") s) (js ", ") (fun s => s)).

Definition cleanupRender (text : jstring) : jstring :=
  trim (fold_left cleanup_step replacements text).

End Cleanup.
Export Cleanup.

(* ================================================================== *)
(** * Results *)
(* ================================================================== *)

Module Result.

(** What a call can throw.  The last two are limits of this development,
    not exceptions of the source: [OutOfFuel] bounds the recursion of the
    renderer, [Unsupported] marks a host behaviour that is not modelled (the
    source text of a function, a number beyond 2^53). *)
Inductive error :=
| TypeError
| SyntaxError
| InvalidTags
| UnclosedTag (pos : nat)
| UnopenedSection (value : jstring) (start : nat)
| UnclosedSection (value : jstring) (pos : nat)
| OutOfFuel
| Unsupported.

Inductive res (A : Type) :=
| Ok (a : A)
| Throw (e : error).
Arguments Ok {A} a.
Arguments Throw {A} e.

Definition bind {A B} (c : res A) (k : A -> res B) : res B :=
  match c with
  | Ok a => k a
  | Throw e => Throw e
  end.

End Result.
Export Result.

Declare Scope res_scope.
Delimit Scope res_scope with res.
Notation "x <- c ;; k" := (Result.bind c (fun x => k))
  (at level 61, c at next level, right associativity) : res_scope.
Notation "' pat <- c ;; k" := (Result.bind c (fun x => match x with pat => k end))
  (at level 61, pat pattern, c at next level, right associativity) : res_scope.

(* ================================================================== *)
(** * mustache.js: scanner and parser *)
(* ================================================================== *)

Module Mustache.

Local Open Scope res_scope.

(** The first element of a token: the symbol of the tag, ['name'] for a
    tag without symbol, ['text'] for text outside the tags. *)
Inductive symbol :=
| SText | SName | SHash | SCaret | SSlash | SGt | SAmp | SEq | SBang.

Definition symbol_eqb (a b : symbol) : bool :=
  match a, b with
  | SText, SText | SName, SName | SHash, SHash | SCaret, SCaret
  | SSlash, SSlash | SGt, SGt | SAmp, SAmp | SEq, SEq | SBang, SBang => true
  | _, _ => false
  end.

(** A token of the flat list that [parseTemplate] builds:
    [[type, value, start, end]], and for a partial also
    [[indentation, tagIndex, lineHasNonSpace]]. *)
Record ftoken := FTok {
  f_type : symbol;
  f_value : jstring;
  f_start : nat;
  f_end : nat;
  f_partial : option (jstring * nat * bool) }.

(** A token of the nested tree.  A section carries its children (index 4)
    and the index at which its closing tag begins (index 5). *)
Inductive token :=
| Tag (type : symbol) (value : jstring) (start finish : nat)
| Section (type : symbol) (value : jstring) (start finish : nat)
          (children : list token) (close : nat)
| Partial (value : jstring) (start finish : nat)
          (indentation : jstring) (tagIndex : nat) (lineHasNonSpace : bool).

(** ** Scanner *)

Record Scanner := { tail : jstring; pos : nat }.

Definition eos (sc : Scanner) : bool := is_empty (tail sc).

(** [scan]: the text matched at the current position, the empty string when
    the pattern does not match there. *)
Definition scan (re : regex) (sc : Scanner) : jstring * Scanner :=
  match re_exec re (tail sc) with
  | Some (O, e) =>
      (firstn e (tail sc), {| tail := skipn e (tail sc); pos := pos sc + e |})
  | _ => ([], sc)
  end.

(** [scanUntil]: the text skipped up to the next match, the whole tail when
    there is none. *)
Definition scanUntil (re : regex) (sc : Scanner) : jstring * Scanner :=
  match re_search re (tail sc) with
  | None => (tail sc, {| tail := []; pos := pos sc + List.length (tail sc) |})
  | Some O => ([], sc)
  | Some index =>
      (firstn index (tail sc),
       {| tail := skipn index (tail sc); pos := pos sc + index |})
  end.

Definition whiteRe : regex := Star (Chr is_space).
Definition spaceRe : regex := Plus (Chr is_space).
Definition equalsRe : regex := Seq (Star (Chr is_space)) (One 61).
Definition curlyRe : regex := Seq (Star (Chr is_space)) (One 125).

(** [tagRe = /#|\^|\/|>|\{|&|=|!/]; a brace is read as ['&'] once the value
    has been scanned, [None] is the ['name'] of a tag without symbol. *)
Definition tag_symbol (c : char) : option symbol :=
  if N.eqb c 35 then Some SHash
  else if N.eqb c 94 then Some SCaret
  else if N.eqb c 47 then Some SSlash
  else if N.eqb c 62 then Some SGt
  else if N.eqb c 123 then Some SAmp
  else if N.eqb c 38 then Some SAmp
  else if N.eqb c 61 then Some SEq
  else if N.eqb c 33 then Some SBang
  else None.
Definition tagRe : regex :=
  Chr (fun c => match tag_symbol c with Some _ => true | None => false end).

(** The three patterns that [compileTags] builds from a pair of delimiters;
    [escapeRegExp] makes the delimiters literal. *)
Record tagRes := { openingTagRe : regex; closingTagRe : regex; closingCurlyRe : regex }.

Definition compileTagPair (o c : jstring) : tagRes :=
  {| openingTagRe := Seq (Lit o) (Star (Chr is_space));
     closingTagRe := Seq (Star (Chr is_space)) (Lit c);
     closingCurlyRe := Seq (Star (Chr is_space)) (Lit (125%N :: c)) |}.

(** [compileTags] on the string of a [{{=a b=}}] tag. *)
Definition compileTags (tagsToCompile : jstring) : res tagRes :=
  match firstn 2 (re_split spaceRe tagsToCompile) with
  | [o; c] => Ok (compileTagPair o c)
  | _ => Throw InvalidTags
  end.

(** [mustache.tags] *)
Definition default_tags : jstring * jstring := (js "{{", js "}}").

(** ** The state of [parseTemplate] *)

Record pstate := {
  scanner : Scanner;
  tokens : list (option ftoken);   (* [None] is a slot emptied by [delete] *)
  sections : list ftoken;          (* innermost first *)
  spaces : list nat;               (* last pushed first *)
  hasTag : bool;
  nonSpace : bool;
  lineHasNonSpace : bool;
  indentation : jstring;
  tagIndex : nat;
  res_tags : tagRes }.

Fixpoint delete_at (i : nat) (l : list (option ftoken)) : list (option ftoken) :=
  match l, i with
  | [], _ => []
  | _ :: l', O => None :: l'
  | x :: l', S i' => x :: delete_at i' l'
  end.

Definition stripSpace (st : pstate) : pstate :=
  {| scanner := scanner st;
     tokens := if hasTag st && negb (nonSpace st)
               then fold_left (fun t i => delete_at i t) (spaces st) (tokens st)
               else tokens st;
     sections := sections st;
     spaces := [];
     hasTag := false;
     nonSpace := false;
     lineHasNonSpace := lineHasNonSpace st;
     indentation := indentation st;
     tagIndex := tagIndex st;
     res_tags := res_tags st |}.

(** The body of the loop over the characters of a text run. *)
Definition text_char (st : pstate) (chr : char) (start : nat) : pstate :=
  let ws := is_space chr in
  let st1 :=
    {| scanner := scanner st;
       tokens := tokens st ++ [Some (FTok SText [chr] start (start + 1) None)];
       sections := sections st;
       spaces := if ws then List.length (tokens st) :: spaces st else spaces st;
       hasTag := hasTag st;
       nonSpace := if ws then nonSpace st else true;
       lineHasNonSpace := if ws then lineHasNonSpace st else true;
       indentation := indentation st ++ [if ws then chr else 32%N];
       tagIndex := tagIndex st;
       res_tags := res_tags st |} in
  if N.eqb chr LF then
    let st2 := stripSpace st1 in
    {| scanner := scanner st2; tokens := tokens st2; sections := sections st2;
       spaces := spaces st2; hasTag := hasTag st2; nonSpace := nonSpace st2;
       lineHasNonSpace := false; indentation := []; tagIndex := 0;
       res_tags := res_tags st2 |}
  else st1.

Fixpoint text_run (st : pstate) (value : jstring) (start : nat) : pstate :=
  match value with
  | [] => st
  | chr :: value' => text_run (text_char st chr start) value' (start + 1)
  end.

Definition with_scanner (st : pstate) (sc : Scanner) : pstate :=
  {| scanner := sc; tokens := tokens st; sections := sections st;
     spaces := spaces st; hasTag := hasTag st; nonSpace := nonSpace st;
     lineHasNonSpace := lineHasNonSpace st; indentation := indentation st;
     tagIndex := tagIndex st; res_tags := res_tags st |}.

(** One turn of the [while (!scanner.eos())] loop.  [inl] is the state for
    the next turn, [inr] the state at a [break]. *)
Definition parse_turn (st : pstate) : res (pstate + pstate) :=
  let start := pos (scanner st) in
  let '(value, sc) := scanUntil (openingTagRe (res_tags st)) (scanner st) in
  let st := text_run (with_scanner st sc) value start in
  let start := start + List.length value in
  let '(opened, sc) := scan (openingTagRe (res_tags st)) (scanner st) in
  if is_empty opened then Ok (inr st)
  else
    let '(ty, sc) := scan tagRe sc in
    let type := match ty with c :: _ => tag_symbol c | [] => None end in
    let brace := match ty with c :: _ => N.eqb c 123 | [] => false end in
    let '(_, sc) := scan whiteRe sc in
    let '(value, sc) :=
      match type with
      | Some SEq =>
          let '(value, sc) := scanUntil equalsRe sc in
          let '(_, sc) := scan equalsRe sc in
          let '(_, sc) := scanUntil (closingTagRe (res_tags st)) sc in
          (value, sc)
      | _ =>
          if brace then
            let '(value, sc) := scanUntil (closingCurlyRe (res_tags st)) sc in
            let '(_, sc) := scan curlyRe sc in
            let '(_, sc) := scanUntil (closingTagRe (res_tags st)) sc in
            (value, sc)
          else scanUntil (closingTagRe (res_tags st)) sc
      end in
    let '(closed, sc) := scan (closingTagRe (res_tags st)) sc in
    if is_empty closed then Throw (UnclosedTag (pos sc))
    else
      let type := match type with Some s => s | None => SName end in
      let token :=
        FTok type value start (pos sc)
             (match type with
              | SGt => Some (indentation st, tagIndex st, lineHasNonSpace st)
              | _ => None
              end) in
      let push (sections : list ftoken) (nonSpace : bool) (tags : tagRes) :=
        {| scanner := sc; tokens := tokens st ++ [Some token];
           sections := sections; spaces := spaces st; hasTag := true;
           nonSpace := nonSpace; lineHasNonSpace := lineHasNonSpace st;
           indentation := indentation st; tagIndex := S (tagIndex st);
           res_tags := tags |} in
      match type with
      | SHash | SCaret => Ok (inl (push (token :: sections st) (nonSpace st) (res_tags st)))
      | SSlash =>
          match sections st with
          | [] => Throw (UnopenedSection value start)
          | openSection :: rest =>
              if jeqb (f_value openSection) value
              then Ok (inl (push rest (nonSpace st) (res_tags st)))
              else Throw (UnclosedSection (f_value openSection) start)
          end
      | SName | SAmp => Ok (inl (push (sections st) true (res_tags st)))
      | SEq =>
          tags <- compileTags value ;;
          Ok (inl (push (sections st) (nonSpace st) tags))
      | _ => Ok (inl (push (sections st) (nonSpace st) (res_tags st)))
      end.

(** The loop; every turn that does not break consumes an opening tag, so
    one more turn than the template has code units is never needed. *)
Fixpoint parse_loop (n : nat) (st : pstate) : res pstate :=
  if eos (scanner st) then Ok st
  else
    match n with
    | O => Throw OutOfFuel
    | S n' =>
        r <- parse_turn st ;;
        match r with
        | inl st' => parse_loop n' st'
        | inr st' => Ok st'
        end
    end.

(** [squashTokens]: [last] is the token that was pushed last. *)
Fixpoint squash_loop (tokens : list (option ftoken)) (done : list ftoken)
  (last : option ftoken) : list ftoken :=
  match tokens with
  | [] => match last with Some l => done ++ [l] | None => done end
  | None :: rest => squash_loop rest done last
  | Some token :: rest =>
      match last with
      | Some l =>
          if symbol_eqb (f_type token) SText && symbol_eqb (f_type l) SText
          then squash_loop rest done
                 (Some (FTok SText (f_value l ++ f_value token) (f_start l)
                             (f_end token) (f_partial l)))
          else squash_loop rest (done ++ [l]) (Some token)
      | None => squash_loop rest done (Some token)
      end
  end.

Definition squashTokens (tokens : list (option ftoken)) : list ftoken :=
  squash_loop tokens [] None.

Definition leaf (t : ftoken) : token :=
  match f_partial t with
  | Some (ind, idx, lns) => Partial (f_value t) (f_start t) (f_end t) ind idx lns
  | None => Tag (f_type t) (f_value t) (f_start t) (f_end t)
  end.

(** [nestTokens]: [collector] holds the tokens of the section being filled,
    last first; [sections] pairs every open section with the collector it
    was pushed on. *)
Fixpoint nest_loop (tokens : list ftoken) (collector : list token)
  (sections : list (ftoken * list token)) : res (list token) :=
  match tokens with
  | [] =>
      (* [nestedTokens] is returned whatever is still open *)
      Ok (fold_left
            (fun inner s =>
               List.rev (Section (f_type (fst s)) (f_value (fst s)) (f_start (fst s))
                                 (f_end (fst s)) inner 0 :: snd s))
            sections (List.rev collector))
  | token :: rest =>
      match f_type token with
      | SHash | SCaret => nest_loop rest [] ((token, collector) :: sections)
      | SSlash =>
          match sections with
          | [] => Throw TypeError
          | (section, outer) :: sections' =>
              nest_loop rest
                (Section (f_type section) (f_value section) (f_start section)
                         (f_end section) (List.rev collector) (f_start token) :: outer)
                sections'
          end
      | _ => nest_loop rest (leaf token :: collector) sections
      end
  end.

Definition nestTokens (tokens : list ftoken) : res (list token) :=
  nest_loop tokens [] [].

Definition parseTemplateWith (template : jstring) (tags : jstring * jstring)
  : res (list token) :=
  if is_empty template then Ok []
  else
    st <- parse_loop (S (List.length template))
            {| scanner := {| tail := template; pos := 0 |};
               tokens := []; sections := []; spaces := [];
               hasTag := false; nonSpace := false; lineHasNonSpace := false;
               indentation := []; tagIndex := 0;
               res_tags := compileTagPair (fst tags) (snd tags) |} ;;
    let st := stripSpace st in
    match sections st with
    | openSection :: _ =>
        Throw (UnclosedSection (f_value openSection) (pos (scanner st)))
    | [] => nestTokens (squashTokens (tokens st))
    end.

(** [Writer.prototype.parse] with [tags] left out.  The template cache is a
    memo of this function and is not modelled. *)
Definition parse (template : jstring) : res (list token) :=
  parseTemplateWith template default_tags.

(** ** Views *)

(** The values a view can hold.  A number is an integer.  A function is
    given by what it returns when it is called without argument (as
    [Context.prototype.lookup] calls it) and when it is called with the text
    of a section and the [subRender] callback (as [renderSection] calls it);
    it does not read [this]. *)
Inductive value :=
| VUndefined
| VNull
| VBool (b : bool)
| VNum (z : Z)
| VString (s : jstring)
| VArray (elements : list value)
| VObject (fields : list (jstring * value))
| VFunction (call0 : res value)
            (call2 : jstring -> (jstring -> res jstring) -> res value).

(** [!!value] *)
Definition truthy (v : value) : bool :=
  match v with
  | VUndefined | VNull => false
  | VBool b => b
  | VNum z => negb (Z.eqb z 0)
  | VString s => nonempty s
  | VArray _ | VObject _ | VFunction _ _ => true
  end.

(** [value != null] *)
Definition not_nullish (v : value) : bool :=
  match v with
  | VUndefined | VNull => false
  | _ => true
  end.

Definition isArray (v : value) : bool :=
  match v with VArray _ => true | _ => false end.

Definition isFunction (v : value) : bool :=
  match v with VFunction _ _ => true | _ => false end.

Fixpoint field (k : jstring) (fs : list (jstring * value)) : option value :=
  match fs with
  | [] => None
  | (k', v) :: fs' => if jeqb k k' then Some v else field k fs'
  end.

Fixpoint decimal_value (acc : N) (s : jstring) : N :=
  match s with
  | [] => acc
  | c :: s' => decimal_value (acc * 10 + (c - 48)) s'
  end.

(** The array index that a property name denotes, if it is the canonical
    decimal of an integer below 2^32 - 1. *)
Definition array_index (k : jstring) : option N :=
  match k with
  | [] => None
  | c :: k' =>
      if forallb is_digit k && (negb (N.eqb c 48) || is_empty k') then
        let n := decimal_value 0 k in
        if N.ltb n 4294967295 then Some n else None
      else None
  end.

Definition length_name : jstring := js "length".

(** [obj[propName]] for a value that is neither [null] nor [undefined]:
    own properties, the elements and the length of an array, the code units
    and the length of a string. *)
Definition getProperty (obj : value) (propName : jstring) : value :=
  match obj with
  | VObject fs => match field propName fs with Some v => v | None => VUndefined end
  | VArray l =>
      if jeqb propName length_name then VNum (Z.of_nat (List.length l))
      else match array_index propName with
           | Some i => nth (N.to_nat i) l VUndefined
           | None => VUndefined
           end
  | VString s =>
      if jeqb propName length_name then VNum (Z.of_nat (List.length s))
      else match array_index propName with
           | Some i => match nth_error s (N.to_nat i) with
                       | Some c => VString [c]
                       | None => VUndefined
                       end
           | None => VUndefined
           end
  | _ => VUndefined
  end.

(** [obj != null && typeof obj === 'object' && (propName in obj)], read on
    the own properties. *)
Definition hasProperty (obj : value) (propName : jstring) : bool :=
  match obj with
  | VObject fs => match field propName fs with Some _ => true | None => false end
  | VArray l =>
      jeqb propName length_name
      || match array_index propName with
         | Some i => N.to_nat i <? List.length l
         | None => false
         end
  | _ => false
  end.

(** [primitive.hasOwnProperty(propName)] for a primitive; the own
    properties of a function are not modelled. *)
Definition primitiveHasOwnProperty (primitive : value) (propName : jstring) : bool :=
  match primitive with
  | VString s =>
      jeqb propName length_name
      || match array_index propName with
         | Some i => N.to_nat i <? List.length s
         | None => false
         end
  | _ => false
  end.

(** ** Context *)

Inductive Context :=
| Ctx (view : value) (parent : option Context).

Definition view (c : Context) : value := match c with Ctx v _ => v end.
Definition parent (c : Context) : option Context := match c with Ctx _ p => p end.

(** [Context.prototype.push] *)
Definition push (c : Context) (view : value) : Context := Ctx view (Some c).

Definition dot : char := 46%N.

(** [name.indexOf('.') > 0] *)
Definition dotted (name : jstring) : bool :=
  match name with
  | [] => false
  | _ :: rest => has_char dot rest
  end.

(** The descent through the segments of a dotted name: the value reached
    and [lookupHit]. *)
Fixpoint descend (intermediateValue : value) (names : list jstring)
  : value * bool :=
  match names with
  | [] => (intermediateValue, false)
  | name :: rest =>
      if not_nullish intermediateValue then
        match rest with
        | [] =>
            (getProperty intermediateValue name,
             hasProperty intermediateValue name
             || primitiveHasOwnProperty intermediateValue name)
        | _ :: _ => descend (getProperty intermediateValue name) rest
        end
      else (intermediateValue, false)
  end.

(** The [while (context)] loop of [lookup]: [Some] at a hit. *)
Fixpoint lookup_walk (name : jstring) (context : Context) : res (option value) :=
  match context with
  | Ctx view parent =>
      hit <-
        (if dotted name then Ok (descend view (split_str [dot] name))
         else if not_nullish view
              then Ok (getProperty view name, hasProperty view name)
              else Throw TypeError) ;;
      if snd hit then Ok (Some (fst hit))
      else match parent with
           | Some p => lookup_walk name p
           | None => Ok None
           end
  end.

(** [Context.prototype.lookup].  The cache of a context starts as
    [{ '.': view }]; beyond that entry it memoises [lookup_walk] and is not
    modelled. *)
Definition lookup (context : Context) (name : jstring) : res value :=
  value <-
    (if jeqb name [dot] then Ok (view context)
     else (r <- lookup_walk name context ;;
           Ok match r with Some v => v | None => VUndefined end)) ;;
  match value with
  | VFunction call0 _ => call0
  | _ => Ok value
  end.

(** ** Writer *)

Definition two_pow_53 : Z := 9007199254740992%Z.

Definition decimal (n : N) : jstring :=
  js (DecimalString.NilZero.string_of_uint (N.to_uint n)).

(** [String(value)], the conversion that [buffer += value] applies. *)
Fixpoint toString (v : value) : res jstring :=
  match v with
  | VUndefined => Ok (js "undefined")
  | VNull => Ok (js "null")
  | VBool b => Ok (if b then js "true" else js "false")
  | VNum z =>
      if Z.ltb (Z.abs z) two_pow_53 then
        Ok ((if Z.ltb z 0 then [45%N] else []) ++ decimal (Z.to_N (Z.abs z)))
      else Throw Unsupported
  | VString s => Ok s
  | VArray l =>
      (fix elements (l : list value) : res jstring :=
         match l with
         | [] => Ok []
         | x :: l' =>
             sx <- (if not_nullish x then toString x else Ok []) ;;
             match l' with
             | [] => Ok sx
             | _ :: _ => rest <- elements l' ;; Ok (sx ++ [44%N] ++ rest)
             end
         end) l
  | VObject _ => Ok (js "[object Object]")
  | VFunction _ _ => Throw Unsupported
  end.

(** [entityMap] *)
Definition entity (c : char) : option jstring :=
  if N.eqb c 38 then Some (js "&amp;")
  else if N.eqb c 60 then Some (js "&lt;")
  else if N.eqb c 62 then Some (js "&gt;")
  else if N.eqb c 34 then Some (js "&quot;")
  else if N.eqb c 39 then Some (js "&#39;")
  else if N.eqb c 47 then Some (js "&#x2F;")
  else if N.eqb c 96 then Some (js "&#x60;")
  else if N.eqb c 61 then Some (js "&#x3D;")
  else None.

Definition escapeHtml (s : jstring) : jstring :=
  flat_map (fun c => match entity c with Some e => e | None => [c] end) s.

(** [originalTemplate.slice(start, end)] *)
Definition slice (s : jstring) (i e : nat) : jstring := substring i e s.

(** The [partials] argument: the template that a name stands for. *)
Definition Partials := option (jstring -> option jstring).

(** [indentation.replace(/[^ \t]/g, '')] and the re-indentation of every
    line of a partial. *)
Definition indentPartial (partial indentation : jstring) (lineHasNonSpace : bool)
  : jstring :=
  let filteredIndentation := filter is_blank indentation in
  let fix lines (i : nat) (l : list jstring) : list jstring :=
      match l with
      | [] => []
      | x :: l' =>
          (if nonempty x && (negb (i =? 0) || negb lineHasNonSpace)
           then filteredIndentation ++ x else x) :: lines (S i) l'
      end in
  join nl (lines 0 (split_str nl partial)).

(** What a token contributes to the buffer; [None] is [undefined]. *)
Definition add (buffer : jstring) (value : option jstring) : jstring :=
  match value with
  | Some v => buffer ++ v
  | None => buffer
  end.

Section Tokens.
(** [this.renderTokens] and [this.render] as seen from the methods that
    render one token. *)
Variable renderTokens : list token -> Context -> jstring -> res jstring.
Variable render : jstring -> Context -> res jstring.
Variable partials : Partials.

Fixpoint renderChildren (children : list token) (context : Context)
  (originalTemplate : jstring) (elements : list value) : res jstring :=
  match elements with
  | [] => Ok []
  | x :: rest =>
      first <- renderTokens children (push context x) originalTemplate ;;
      others <- renderChildren children context originalTemplate rest ;;
      Ok (first ++ others)
  end.

Definition renderSection (token : token) (context : Context)
  (originalTemplate : jstring) : res (option jstring) :=
  match token with
  | Section _ name _ finish children close =>
      value <- lookup context name ;;
      if negb (truthy value) then Ok None
      else
        match value with
        | VArray elements =>
            buffer <- renderChildren children context originalTemplate elements ;;
            Ok (Some buffer)
        | VObject _ | VString _ | VNum _ =>
            buffer <- renderTokens children (push context value) originalTemplate ;;
            Ok (Some buffer)
        | VFunction _ call2 =>
            value <- call2 (slice originalTemplate finish close)
                           (fun template => render template context) ;;
            if not_nullish value
            then (s <- toString value ;; Ok (Some s))
            else Ok (Some [])
        | _ =>
            buffer <- renderTokens children context originalTemplate ;;
            Ok (Some buffer)
        end
  | _ => Throw TypeError
  end.

Definition renderInverted (token : token) (context : Context)
  (originalTemplate : jstring) : res (option jstring) :=
  match token with
  | Section _ name _ _ children _ =>
      value <- lookup context name ;;
      if negb (truthy value)
         || match value with VArray [] => true | _ => false end
      then (buffer <- renderTokens children context originalTemplate ;;
            Ok (Some buffer))
      else Ok None
  | _ => Throw TypeError
  end.

Definition renderPartial (token : token) (context : Context)
  : res (option jstring) :=
  match token, partials with
  | Partial name _ _ indentation tagIndex lineHasNonSpace, Some provider =>
      match provider name with
      | Some value =>
          let indentedValue :=
            if (tagIndex =? 0) && nonempty indentation
            then indentPartial value indentation lineHasNonSpace
            else value in
          tokens <- parse indentedValue ;;
          buffer <- renderTokens tokens context indentedValue ;;
          Ok (Some buffer)
      | None => Ok None
      end
  | _, _ => Ok None
  end.

Definition unescapedValue (name : jstring) (context : Context)
  : res (option jstring) :=
  value <- lookup context name ;;
  if not_nullish value then (s <- toString value ;; Ok (Some s)) else Ok None.

(** [config] is never given, so [escape] is [mustache.escape]. *)
Definition escapedValue (name : jstring) (context : Context)
  : res (option jstring) :=
  value <- lookup context name ;;
  if not_nullish value then
    s <- toString value ;;
    Ok (Some (match value with VNum _ => s | _ => escapeHtml s end))
  else Ok None.

(** The dispatch on [token[0]] in the loop of [renderTokens]. *)
Definition renderToken (token : token) (context : Context)
  (originalTemplate : jstring) : res (option jstring) :=
  match token with
  | Section SHash _ _ _ _ _ => renderSection token context originalTemplate
  | Section SCaret _ _ _ _ _ => renderInverted token context originalTemplate
  | Partial _ _ _ _ _ _ => renderPartial token context
  | Tag SAmp name _ _ => unescapedValue name context
  | Tag SName name _ _ => escapedValue name context
  | Tag SText text _ _ => Ok (Some text)
  | _ => Ok None
  end.

Fixpoint renderEach (tokens : list token) (context : Context)
  (originalTemplate : jstring) (buffer : jstring) : res jstring :=
  match tokens with
  | [] => Ok buffer
  | token :: rest =>
      value <- renderToken token context originalTemplate ;;
      renderEach rest context originalTemplate (add buffer value)
  end.
End Tokens.

(** [Writer.prototype.renderTokens]; [fuel] bounds the depth of the calls
    through sections, partials and [subRender]. *)
Fixpoint renderTokens (fuel : nat) (partials : Partials) (tokens : list token)
  (context : Context) (originalTemplate : jstring) : res jstring :=
  match fuel with
  | O => Throw OutOfFuel
  | S fuel' =>
      renderEach (renderTokens fuel' partials)
        (fun template context =>
           tokens <- parse template ;;
           renderTokens fuel' partials tokens context template)
        partials tokens context originalTemplate []
  end.

(** [Writer.prototype.render] on a context. *)
Definition renderIn (fuel : nat) (partials : Partials) (template : jstring)
  (context : Context) : res jstring :=
  tokens <- parse template ;;
  renderTokens fuel partials tokens context template.

(** [mustache.render(template, view, partials)] *)
Definition render (fuel : nat) (template : jstring) (view : value)
  (partials : Partials) : res jstring :=
  renderIn fuel partials template (Ctx view None).

End Mustache.

(* ================================================================== *)
(** * Input objects and the heap *)
(* ================================================================== *)

Module Store.

(** What a field of an input object can hold.  The caller gives strings
    ([index.d.ts]); the formatter itself can store [undefined] (the result
    of [getStateCode] and [getCountyCode]) and, under [appendCountry] with
    the country code ['default'], the object [countryNames]. *)
Inductive val :=
| VUndef
| VStr (s : jstring)
| VNames.

(** [!!v] *)
Definition truthy (v : val) : bool :=
  match v with
  | VUndef => false
  | VStr s => nonempty s
  | VNames => true
  end.

(** [String(v)], as in ["".concat(v)] and [Array.prototype.join] of one
    element that is not [undefined]. *)
Definition text (v : val) : jstring :=
  match v with
  | VUndef => js "undefined"
  | VStr s => s
  | VNames => js "[object Object]"
  end.

(** The property name that a value used as a key denotes. *)
Definition key_of (v : val) : jstring := text v.

(** An object: its own enumerable properties in creation order. *)
Definition obj := list (jstring * val).

Fixpoint own (k : jstring) (o : obj) : option val :=
  match o with
  | [] => None
  | (k', v) :: o' => if jeqb k k' then Some v else own k o'
  end.

(** [o[k]].  The names that the formatter reads without their being own
    keys are names of address components, none of which is a member of
    [Object.prototype]. *)
Definition get (o : obj) (k : jstring) : val :=
  match own k o with
  | Some v => v
  | None => VUndef
  end.

Fixpoint put (k : jstring) (v : val) (o : obj) : obj :=
  match o with
  | [] => [(k, v)]
  | (k', v') :: o' => if jeqb k k' then (k, v) :: o' else (k', v') :: put k v o'
  end.

(** [o[k] = v]; an assignment to [__proto__] reaches the setter of
    [Object.prototype], which ignores a value that is not an object. *)
Definition set (o : obj) (k : jstring) (v : val) : obj :=
  if jeqb k proto_key then o else put k v o.

(** [delete o[k]] *)
Fixpoint delete (o : obj) (k : jstring) : obj :=
  match o with
  | [] => []
  | (k', v) :: o' => if jeqb k k' then o' else (k', v) :: delete o' k
  end.

Fixpoint insert_index (x : N * jstring) (l : list (N * jstring)) : list (N * jstring) :=
  match l with
  | [] => [x]
  | y :: l' => if N.leb (fst x) (fst y) then x :: l else y :: insert_index x l'
  end.

(** [Object.keys(o)]: the array indices in ascending order, then the other
    names in creation order. *)
Definition keys (o : obj) : list jstring :=
  let names := List.map fst o in
  let indices :=
    fold_right (fun k acc => match Mustache.array_index k with
                             | Some n => insert_index (n, k) acc
                             | None => acc
                             end) [] names in
  List.map snd indices
  ++ filter (fun k => match Mustache.array_index k with Some _ => false | None => true end)
            names.

(** [Object.assign(target, source)] *)
Definition assign (target source : obj) : obj :=
  fold_left (fun t k => set t k (get source k)) (keys source) target.

(** [array.join(glue)] on field values: [undefined] is joined as the empty
    string. *)
Definition join_vals (glue : jstring) (l : list val) : jstring :=
  join glue (List.map (fun v => match v with VUndef => [] | _ => text v end) l).

(** ** The heap *)

Definition ref := nat.
Definition heap := list obj.

Definition read (h : heap) (r : ref) : obj := nth r h [].

Fixpoint write (h : heap) (r : ref) (o : obj) : heap :=
  match h, r with
  | [], _ => []
  | _ :: h', O => o :: h'
  | x :: h', S r' => x :: write h' r' o
  end.

(** A computation on the heap that returns or throws. *)
Definition M (A : Type) := heap -> res A * heap.

Definition ret {A} (a : A) : M A := fun h => (Ok a, h).
Definition throw {A} (e : error) : M A := fun h => (Throw e, h).
Definition lift {A} (r : res A) : M A := fun h => (r, h).

Definition bind {A B} (c : M A) (k : A -> M B) : M B :=
  fun h =>
    match c h with
    | (Ok a, h') => k a h'
    | (Throw e, h') => (Throw e, h')
    end.

(** [{}] with the given properties *)
Definition alloc (o : obj) : M ref := fun h => (Ok (List.length h), h ++ [o]).
Definition load (r : ref) : M obj := fun h => (Ok (read h r), h).
Definition store (r : ref) (o : obj) : M unit := fun h => (Ok tt, write h r o).

End Store.
Export Store.

Declare Scope heap_scope.
Delimit Scope heap_scope with heap.
Notation "x <- c ;; k" := (Store.bind c (fun x => k))
  (at level 61, c at next level, right associativity) : heap_scope.
Notation "c ;; k" := (Store.bind c (fun _ => k))
  (at level 61, right associativity) : heap_scope.

Module HeapOps.
Local Open Scope heap_scope.

Definition getp (r : ref) (k : jstring) : M val := o <- load r ;; ret (get o k).
Definition setp (r : ref) (k : jstring) (v : val) : M unit :=
  o <- load r ;; store r (set o k v).
Definition delp (r : ref) (k : jstring) : M unit :=
  o <- load r ;; store r (delete o k).
Definition keysp (r : ref) : M (list jstring) := o <- load r ;; ret (keys o).

(** A [for] loop over an array. *)
Fixpoint for_each {A} (l : list A) (body : A -> M unit) : M unit :=
  match l with
  | [] => ret tt
  | x :: l' => body x ;; for_each l' body
  end.

Definition when (b : bool) (c : M unit) : M unit := if b then c else ret tt.

End HeapOps.
Export HeapOps.

(* ================================================================== *)
(** * The data tables and the host *)
(* ================================================================== *)

Module Data.

(** An entry of [templates] for a country. *)
Record CountryTemplate := {
  address_template : option jstring;
  fallback_template : option jstring;
  replace : option (list (jstring * jstring));
  postformat_replace : option (list (jstring * jstring));
  use_country : option jstring;
  change_country : option jstring;
  add_component : option jstring }.

(** [templates] maps the country codes to such entries, and the names
    [generic1] ... [fallback4] to bare template strings. *)
Inductive entry :=
| Country (c : CountryTemplate)
| TemplateText (text : jstring).

(** The [name] of a subdivision: a string or a table of variants. *)
Inductive subdivision_name :=
| NameString (s : jstring)
| NameVariants (variants : list jstring).

Record subdivision := { name : subdivision_name; key : jstring }.

Record abbreviation := {
  component : jstring;
  replacements : list (jstring * jstring) }.   (* [src], [dest] *)

(** The static tables, each by its own keys. *)
Class Tables := {
  templates_default : CountryTemplate;              (* [templates.default] *)
  templates_own : jstring -> option entry;          (* the other keys *)
  stateCodes : jstring -> option (list subdivision);
  countyCodes : jstring -> option (list subdivision);
  country2lang : jstring -> option (list jstring);
  abbreviations : jstring -> option (list abbreviation);
  countryNames : list (jstring * jstring) }.

(** What the host provides beyond the functions modelled above: the case
    mapping of the Unicode tables, and [RegExp] on a pattern that comes from
    a table or from a key of the input. *)
Class Host := {
  toUpperCase : jstring -> jstring;
  regexp_valid : jstring -> bool;                         (* [new RegExp(p)] returns *)
  regexp_test : jstring -> jstring -> bool;               (* [s.match(new RegExp(p))] *)
  regexp_replace : jstring -> jstring -> jstring -> jstring }.
                                          (* [s.replace(new RegExp(p), d)], as [p s d] *)

(** A read of a plain object that is a table. *)
Inductive slot (A : Type) :=
| Own (a : A)
| Inherited
| Absent.
Arguments Own {A} a.
Arguments Inherited {A}.
Arguments Absent {A}.

Definition plain {A} (own : jstring -> option A) (k : jstring) : slot A :=
  match own k with
  | Some a => Own a
  | None => if inherited k then Inherited else Absent
  end.

Definition default_key : jstring := js "default".

(** [templates[k]] *)
Definition templates `{Tables} (k : jstring) : slot entry :=
  if jeqb k default_key then Own (Country templates_default)
  else plain templates_own k.

(** [aliases] *)
Definition aliases : list (jstring * jstring) :=
  List.map (fun p => (js (fst p), js (snd p)))
  [ ("street_number", "house_number"); ("housenumber", "house_number");
    ("house_number", "house_number"); ("building", "house"); ("floor", "floor");
    ("door", "door"); ("infos", "infos"); ("addition", "addition");
    ("public_building", "house"); ("isolated_dwelling", "house");
    ("farmland", "house"); ("allotments", "house"); ("house", "house");
    ("footway", "road"); ("street", "road"); ("street_name", "road");
    ("residential", "road"); ("path", "road"); ("pedestrian", "road");
    ("road_reference", "road"); ("road_reference_intl", "road");
    ("square", "road"); ("road", "road"); ("farmland", "place");
    ("allotments", "place"); ("place", "place"); ("locality", "hamlet");
    ("croft", "hamlet"); ("hamlet", "hamlet"); ("village", "village");
    ("suburb", "neighbourhood"); ("city_district", "neighbourhood");
    ("commune", "neighbourhood"); ("district", "neighbourhood");
    ("quarter", "neighbourhood"); ("borough", "neighbourhood");
    ("city_block", "neighbourhood"); ("residential", "neighbourhood");
    ("commercial", "neighbourhood"); ("industrial", "neighbourhood");
    ("houses", "neighbourhood"); ("subdistrict", "neighbourhood");
    ("subdivision", "neighbourhood"); ("ward", "neighbourhood");
    ("neighbourhood", "neighbourhood"); ("postal_city", "postal_city");
    ("town", "city"); ("township", "city"); ("city", "city");
    ("local_administrative_area", "municipality"); ("subcounty", "municipality");
    ("municipality", "municipality"); ("county_code", "county");
    ("department", "county"); ("county", "county");
    ("state_district", "state_district"); ("postal_code", "postcode");
    ("partial_postcode", "postcode"); ("postcode", "postcode");
    ("province", "state"); ("state_code", "state"); ("territory", "state");
    ("state", "state"); ("oblast", "region"); ("raion", "region");
    ("region", "region"); ("island", "island"); ("archipelago", "archipelago");
    ("country_name", "country"); ("country", "country");
    ("country_code", "country_code"); ("continent", "continent") ]%string.

Definition knownComponents : list jstring := List.map fst aliases.

(** [knownComponents.indexOf(k) > -1] *)
Definition known (k : jstring) : bool := existsb (jeqb k) knownComponents.

Definition VALID_REPLACEMENT_COMPONENTS : list jstring := [js "state"].

Definition SMALL_DISTRICT_COUNTRIES (k : jstring) : option unit :=
  if existsb (jeqb k)
       (List.map js ["BR"; "CR"; "ES"; "NI"; "PY"; "RO"; "TG"; "TM"; "XK"]%string)
  then Some tt else None.

(** The second argument of [format]. *)
Record Options := {
  abbreviate : bool;
  appendCountry : bool;
  cleanupPostcode : option bool;
  countryCode : option jstring;
  fallbackCountryCode : option jstring;
  output : option jstring }.

(** The value of [options] when the caller leaves it out. *)
Definition default_options : Options :=
  {| abbreviate := false; appendCountry := false; cleanupPostcode := Some true;
     countryCode := None; fallbackCountryCode := None;
     output := Some (js "string") |}.

(** [!!s] for an optional string *)
Definition given (s : option jstring) : bool :=
  match s with
  | Some x => nonempty x
  | None => false
  end.

End Data.
Export Data.

(* ================================================================== *)
(** * The normaliser *)
(* ================================================================== *)

Module Formatter.
Local Open Scope heap_scope.

Section Pipeline.
Context {tables : Tables} {host : Host}.

(** [!!templates[k]] *)
Definition truthy_entry (s : slot entry) : bool :=
  match s with
  | Own (Country _) => true
  | Own (TemplateText t) => nonempty t
  | Inherited => true
  | Absent => false
  end.

(** [templates[k].f]: a template string and an inherited member have no
    such property. *)
Definition entry_field {A} (f : CountryTemplate -> option A) (s : slot entry)
  : option A :=
  match s with
  | Own (Country c) => f c
  | _ => None
  end.

(** [k.replace(/([A-Z])/g, '_$1')] *)
Definition snake (k : jstring) : jstring :=
  flat_map (fun c => if is_upper c then [95%N; c] else [c]) k.

Definition normalizeComponentKeys (input : ref) : M ref :=
  inputKeys <- keysp input ;;
  for_each inputKeys (fun key =>
    let snaked := toLowerCase (snake key) in
    current <- getp input snaked ;;
    when (known snaked && negb (truthy current))
      (v <- getp input key ;;
       when (truthy v) (setp input snaked v) ;;
       delp input key)) ;;
  ret input.

Definition dollar : char := 36%N.

(** The pattern of [determineCountryCode]: a dollar sign and the word
    characters that follow it, which are its one capture group. *)
Definition componentRegex : regex := Seq (One dollar) (Star (Chr is_word)).

Definition curacao : jstring := js "Cura" ++ [231%N] ++ js "ao".

(** The country name that a [change_country] directive gives: the first
    [$name] of the directive is replaced by [input[name]], or removed when
    that field is falsy. *)
Definition countryName (change_country : jstring) (input : obj) : jstring :=
  match re_exec componentRegex change_country with
  | Some (i, e) =>
      let name := substring (S i) e change_country in
      if truthy (get input name)
      then re_replace_expand (Seq (One dollar) (Lit name)) (text (get input name))
                             change_country
      else re_replace (Seq (One dollar) (Lit name)) [] change_country
  | None => change_country
  end.

Definition changeCountry (input : ref) (change_country : jstring) : M unit :=
  o <- load input ;;
  setp input (js "country") (VStr (countryName change_country o)).

(** The field that an [add_component] directive sets, if any:
    [splitted[0]] and [splitted[1]]. *)
Definition componentToAdd (add_component : jstring) : option (jstring * jstring) :=
  if has_char 61 add_component then
    let splitted := split_str [61%N] add_component in
    if existsb (jeqb (nth 0 splitted [])) VALID_REPLACEMENT_COMPONENTS
    then Some (nth 0 splitted [], nth 1 splitted [])
    else None
  else None.

Definition addComponent (input : ref) (add_component : jstring) : M unit :=
  match componentToAdd add_component with
  | Some (k, v) => setp input k (VStr v)
  | None => ret tt
  end.

(** The islands that are told apart under the country code [NL]: the new
    country code and the country name. *)
Definition dutchIsland (countryCode : jstring) (state : val)
  : res (option (jstring * jstring)) :=
  if jeqb countryCode (js "NL") && truthy state then
    match state with
    | VStr s =>
        Ok (if jeqb s curacao then Some (js "CW", curacao)
            else if re_test (LitNoCase (js "sint maarten")) s
                 then Some (js "SX", js "Sint Maarten")
            else if re_test (LitNoCase (js "aruba")) s
                 then Some (js "AW", js "Aruba")
            else None)
    | _ => Throw TypeError
    end
  else Ok None.

(** [determineCountryCode] once [countryCode] is known to have two code
    units. *)
Definition redirect (input : ref) (countryCode : jstring) : M ref :=
  let countryCode := if jeqb countryCode (js "UK") then js "GB" else countryCode in
  countryCode <-
    match entry_field use_country (templates countryCode) with
    | Some target =>
        if nonempty target then
          match entry_field change_country (templates countryCode) with
          | Some cc => when (nonempty cc) (changeCountry input cc)
          | None => ret tt
          end ;;
          match entry_field add_component (templates countryCode) with
          | Some ac => when (nonempty ac) (addComponent input ac)
          | None => ret tt
          end ;;
          ret (toUpperCase target)
        else ret countryCode
    | None => ret countryCode
    end ;;
  state <- getp input (js "state") ;;
  island <- lift (dutchIsland countryCode state) ;;
  countryCode <-
    match island with
    | Some (code, country) => setp input (js "country") (VStr country) ;; ret code
    | None => ret countryCode
    end ;;
  setp input (js "country_code") (VStr countryCode) ;;
  ret input.

Definition determineCountryCode (input : ref) (fallbackCountryCode : option jstring)
  : M ref :=
  cc <- getp input (js "country_code") ;;
  countryCode <-
    match cc with
    | VStr s => ret (if nonempty s then VStr (toUpperCase s) else cc)
    | VUndef => ret cc
    | VNames => throw TypeError
    end ;;
  let countryCode :=
    match fallbackCountryCode with
    | Some fb =>
        if negb (truthy_entry (templates (key_of countryCode))) && nonempty fb
        then VStr (toUpperCase fb) else countryCode
    | None => countryCode
    end in
  match countryCode with
  | VStr code => if List.length code =? 2 then redirect input code else ret input
  | _ => ret input
  end.

Definition tailoredAliases (country_code : val) : list (jstring * jstring) :=
  match plain SMALL_DISTRICT_COUNTRIES (key_of country_code) with
  | Absent =>
      filter (fun a => negb (jeqb (fst a) (js "district"))) aliases
      ++ [(js "district", js "state_district")]
  | _ => aliases
  end.

Definition applyAliases (input : ref) : M ref :=
  inputKeys <- keysp input ;;
  country_code <- getp input (js "country_code") ;;
  for_each inputKeys (fun key =>
    match find (fun a => jeqb (fst a) key) (tailoredAliases country_code) with
    | Some alias =>
        current <- getp input (snd alias) ;;
        when (negb (truthy current))
          (v <- getp input (fst alias) ;; setp input (snd alias) v)
    | None => ret tt
    end) ;;
  ret input.

(** The callback of [find] in [getStateCode] and [getCountyCode]. *)
Definition names_match (e : subdivision) (wanted : jstring) : bool :=
  match name e with
  | NameString s =>
      jeqb (toUpperCase s) (toUpperCase wanted)
      || match find (fun v => jeqb (toUpperCase v) (toUpperCase wanted))
                    (List.map (fun c => [c]) s) with
         | Some v => nonempty v
         | None => false
         end
  | NameVariants variants =>
      match find (fun v => jeqb (toUpperCase v) (toUpperCase wanted)) variants with
      | Some v => nonempty v
      | None => false
      end
  end.

Definition codeIn (table : jstring -> option (list subdivision))
  (wanted : val) (countryCode : val) : res val :=
  match plain table (key_of countryCode) with
  | Absent => Ok VUndef
  | Inherited => Throw TypeError
  | Own [] => Ok VUndef
  | Own l =>
      match wanted with
      | VStr s =>
          Ok match find (fun e => names_match e s) l with
             | Some found => VStr (key found)
             | None => VUndef
             end
      | _ => Throw TypeError
      end
  end.

Definition getStateCode (state countryCode : val) : res val :=
  codeIn stateCodes state countryCode.
Definition getCountyCode (county countryCode : val) : res val :=
  codeIn countyCodes county countryCode.

(** The [replacements] argument of [cleanupInput], which is
    [template.replace]: a table, [undefined], or -- when the template is a
    bare string -- the method [String.prototype.replace], a function whose
    [length] is 2. *)
Inductive replacements_arg :=
| Rules (rules : list (jstring * jstring))
| NoRules
| StringReplace.

(** [new RegExp(p)] *)
Definition compile (p : jstring) : M unit :=
  if regexp_valid p then ret tt else throw SyntaxError.

(** The body of the two nested loops of [cleanupInput]. *)
Definition applyRule (input : ref) (key : jstring) (rule : jstring * jstring)
  : M unit :=
  let componentRegex := [94%N] ++ key ++ [61%N] in
  compile componentRegex ;;
  v <- getp input key ;;
  if regexp_test componentRegex (fst rule) then
    let val := regexp_replace componentRegex (fst rule) [] in
    compile val ;;
    match v with
    | VStr s => when (regexp_test val s) (setp input key (VStr (regexp_replace val s (snd rule))))
    | _ => throw TypeError
    end
  else
    compile (fst rule) ;;
    setp input key (VStr (regexp_replace (fst rule) (text v) (snd rule))).

Definition applyReplacements (input : ref) (inputKeys : list jstring)
  (replacements : replacements_arg) : M unit :=
  match replacements with
  | NoRules | Rules [] => ret tt
  | Rules rules =>
      for_each inputKeys (fun key => for_each rules (applyRule input key))
  | StringReplace =>
      match inputKeys with
      | [] => ret tt
      | key :: _ => compile ([94%N] ++ key ++ [61%N]) ;; throw TypeError
      end
  end.

(** [/^washington,? d\.?c\.?/i] *)
Definition washingtonRegex : regex :=
  Seq Bol (Seq (LitNoCase (js "washington"))
    (Seq (Opt (One 44)) (Seq (One 32) (Seq (NoCase 100) (Seq (Opt (One 46))
      (Seq (NoCase 99) (Opt (One 46)))))))).

Definition deriveStateCode (input : ref) : M unit :=
  state_code <- getp input (js "state_code") ;;
  state <- getp input (js "state") ;;
  when (negb (truthy state_code) && truthy state)
    (country_code <- getp input (js "country_code") ;;
     code <- lift (getStateCode state country_code) ;;
     setp input (js "state_code") code ;;
     match state with
     | VStr s =>
         when (re_test washingtonRegex s)
           (setp input (js "state_code") (VStr (js "DC")) ;;
            setp input (js "state") (VStr (js "District of Columbia")) ;;
            setp input (js "city") (VStr (js "Washington")))
     | _ => throw TypeError
     end).

Definition deriveCountyCode (input : ref) : M unit :=
  county_code <- getp input (js "county_code") ;;
  county <- getp input (js "county") ;;
  when (negb (truthy county_code) && truthy county)
    (country_code <- getp input (js "country_code") ;;
     code <- lift (getCountyCode county country_code) ;;
     setp input (js "county_code") code).

(** The keys of [inputKeys] that are not known components. *)
Definition unknownComponents (inputKeys : list jstring) : list jstring :=
  filter (fun k => negb (known k)) inputKeys.

Definition collectAttention (input : ref) (inputKeys : list jstring) : M unit :=
  let unknown := unknownComponents inputKeys in
  when (negb (match unknown with [] => true | _ => false end))
    (o <- load input ;;
     setp input (js "attention")
          (VStr (join_vals (js ", ") (List.map (get o) unknown)))).

(** [/^(\d{5}),\d{5}/] *)
Definition multiCodeRegex : regex :=
  Seq Bol (Seq (Times 5 (Chr is_digit)) (Seq (One 44) (Times 5 (Chr is_digit)))).

(** [/\d+;\d+/] *)
Definition rangeRegex : regex :=
  Seq (Plus (Chr is_digit)) (Seq (One 59) (Plus (Chr is_digit))).

Definition postcodeCleanupEnabled (options : Options) : bool :=
  match cleanupPostcode options with
  | Some false => false
  | _ => true
  end.

Definition normalizePostcode (input : ref) (options : Options) : M unit :=
  postcode <- getp input (js "postcode") ;;
  when (truthy postcode && postcodeCleanupEnabled options)
    (let postcode := text postcode in
     setp input (js "postcode") (VStr postcode) ;;
     if 20 <? List.length postcode then delp input (js "postcode")
     else if re_test rangeRegex postcode then delp input (js "postcode")
     else if re_test multiCodeRegex postcode
          then setp input (js "postcode") (VStr (firstn 5 postcode))
          else ret tt).

Definition wordBoundary : jstring := [92%N; 98%N].

(** The languages of a country; the abbreviation table is taken to have no
    entry under the name [undefined], so that an inherited member of
    [country2lang] contributes no rule. *)
Definition languages (country_code : val) : list jstring :=
  match plain country2lang (key_of country_code) with
  | Own l => l
  | _ => []
  end.

Definition abbreviateComponent (input : ref) (a : abbreviation) : M unit :=
  current <- getp input (component a) ;;
  when (truthy current)
    (for_each (replacements a) (fun r =>
       v <- getp input (component a) ;;
       let p := wordBoundary ++ fst r ++ wordBoundary in
       compile p ;;
       match v with
       | VStr s => setp input (component a) (VStr (regexp_replace p s (snd r)))
       | _ => throw TypeError
       end)).

Definition abbreviateAll (input : ref) (options : Options) : M unit :=
  country_code <- getp input (js "country_code") ;;
  when (abbreviate options && truthy country_code)
    (for_each (languages country_code) (fun lang =>
       match abbreviations lang with
       | Some l => for_each l (abbreviateComponent input)
       | None => ret tt
       end)).

(** [/^https?:\/\//i] *)
Definition urlRegex : regex :=
  Seq Bol (Seq (LitNoCase (js "http")) (Seq (Opt (NoCase 115)) (Lit (js "://")))).

Definition dropUrls (input : ref) : M unit :=
  inputKeys <- keysp input ;;
  for_each inputKeys (fun key =>
    v <- getp input key ;;
    when (re_test urlRegex (text v)) (delp input key)).

(** [Number.isInteger(v)]: no value of an input object is a number. *)
Definition Number_isInteger (v : val) : bool := false.

Definition swapNumericCountry (input : ref) : M unit :=
  country <- getp input (js "country") ;;
  state <- getp input (js "state") ;;
  when (truthy country && truthy state && Number_isInteger country)
    (setp input (js "country") state ;; delp input (js "state")).

Definition cleanupInput (input : ref) (replacements : replacements_arg)
  (options : Options) : M ref :=
  inputKeys <- keysp input ;;
  swapNumericCountry input ;;
  applyReplacements input inputKeys replacements ;;
  deriveStateCode input ;;
  deriveCountyCode input ;;
  collectAttention input inputKeys ;;
  normalizePostcode input options ;;
  abbreviateAll input options ;;
  dropUrls input ;;
  ret input.

(* ------------------------------------------------------------------ *)
(** ** Template selection and rendering *)

(** [templates[input.country_code] ? templates[input.country_code]
    : templates.default] *)
Definition findTemplate (input : ref) : M (slot entry) :=
  country_code <- getp input (js "country_code") ;;
  let found := templates (key_of country_code) in
  ret (if truthy_entry found then found else Own (Country templates_default)).

(** [template.replace].  On a bare template string this is the method
    [String.prototype.replace]. *)
Definition replace_of (template : slot entry) : replacements_arg :=
  match template with
  | Own (Country c) =>
      match replace c with
      | Some rules => Rules rules
      | None => NoRules
      end
  | Own (TemplateText _) => StringReplace
  | _ => NoRules
  end.

(** [a || b] on optional strings *)
Definition or_else (a b : option jstring) : option jstring :=
  if given a then a else b.

Definition threshold : nat := 2.
Definition required : list jstring := [js "road"; js "postcode"].

Definition chooseTemplateText (template : slot entry) (input : obj)
  : option jstring :=
  let selected :=
    or_else (entry_field address_template template)
            (address_template templates_default) in
  let missingValuesCnt :=
    List.length (filter (fun s => negb s)
                        (List.map (fun r => truthy (get input r)) required)) in
  if missingValuesCnt =? threshold
  then or_else (entry_field fallback_template template)
               (fallback_template templates_default)
  else selected.

(** [/\s*\|\|\s*/] *)
Definition separator : regex :=
  Seq (Star (Chr is_space)) (Seq (Lit (js "||")) (Star (Chr is_space))).

(** What the function under [first] makes of the rendered text of its
    section. *)
Definition firstOf (rendered : jstring) : jstring :=
  let possibilities := filter nonempty (re_split separator rendered) in
  match possibilities with
  | p :: _ => p
  | [] => []
  end.

(** The function that [first()] returns.  Called without arguments its
    [render] is [undefined]. *)
Definition firstSection : Mustache.value :=
  Mustache.VFunction (Throw TypeError)
    (fun text render =>
       Result.bind (render text) (fun r => Ok (Mustache.VString (firstOf r)))).

(** [first: function first() { return function (text, render) ... }] *)
Definition first : Mustache.value :=
  Mustache.VFunction (Ok firstSection) (fun _ _ => Ok firstSection).

Definition viewOf (v : val) : Mustache.value :=
  match v with
  | VUndef => Mustache.VUndefined
  | VStr s => Mustache.VString s
  | VNames =>
      Mustache.VObject
        (List.map (fun p => (fst p, Mustache.VString (snd p))) countryNames)
  end.

Fixpoint putField (k : jstring) (v : Mustache.value)
  (fs : list (jstring * Mustache.value)) : list (jstring * Mustache.value) :=
  match fs with
  | [] => [(k, v)]
  | (k', v') :: fs' =>
      if jeqb k k' then (k, v) :: fs' else (k', v') :: putField k v fs'
  end.

(** [Object.assign({}, input, { first: ... })] *)
Definition templateInput (input : obj) : Mustache.value :=
  Mustache.VObject
    (putField (js "first") first
       (List.map (fun p => (fst p, viewOf (snd p))) (assign [] input))).

(** [new RegExp(p)] outside the heap *)
Definition compiled (p : jstring) : res unit :=
  if regexp_valid p then Ok tt else Throw SyntaxError.

Fixpoint postformat (rules : list (jstring * jstring)) (render : jstring)
  : res jstring :=
  match rules with
  | [] => Ok render
  | replacement :: rest =>
      Result.bind (compiled (fst replacement)) (fun _ =>
        postformat rest (regexp_replace (fst replacement) render (snd replacement)))
  end.

(** The depth of the calls of the renderer on a template of the tables is
    below the length of its text: the templates use no partial, and the one
    function they use, [first], renders the text of its own section. *)
Definition renderFuel (templateText : jstring) : nat := S (List.length templateText).

(** [renderTemplate] up to the second [cleanupRender]. *)
Definition renderedText (template : slot entry) (input : obj) : res jstring :=
  match chooseTemplateText template input with
  | None => Throw TypeError
  | Some templateText =>
      Result.bind
        (Mustache.render (renderFuel templateText) templateText
                         (templateInput input) None)
        (fun rendered =>
           Result.bind
             (match entry_field postformat_replace template with
              | Some rules => postformat rules (cleanupRender rendered)
              | None => Ok (cleanupRender rendered)
              end)
             (fun render => Ok (cleanupRender render)))
  end.

(** The text that stands in for an empty rendering. *)
Definition lastResort (input : obj) : jstring :=
  cleanupRender
    (join_vals (js ", ")
       (filter truthy (List.map (fun i => get input i) (keys input)))).

Definition renderTemplate (template : slot entry) (input : ref) : M jstring :=
  o <- load input ;;
  render <- lift (renderedText template o) ;;
  let render := if is_empty (trim render) then lastResort o else render in
  ret (render ++ nl).

(** [countryNames$1[k]]: the names by country code and, under [default],
    the table itself; this object has no prototype. *)
Definition countryNames1 (k : jstring) : val :=
  if jeqb k default_key then VNames
  else match find (fun p => jeqb (fst p) k) countryNames with
       | Some p => VStr (snd p)
       | None => VUndef
       end.

(** What [format] returns. *)
Inductive formatted :=
| Text (s : jstring)
| Lines (l : list jstring).

Definition format (input : ref) (options : Options) : M formatted :=
  caller <- load input ;;
  realInput <- alloc (assign [] caller) ;;
  realInput <- normalizeComponentKeys realInput ;;
  match countryCode options with
  | Some cc => when (nonempty cc) (setp realInput (js "country_code") (VStr cc))
  | None => ret tt
  end ;;
  realInput <- determineCountryCode realInput (fallbackCountryCode options) ;;
  country_code <- getp realInput (js "country_code") ;;
  country <- getp realInput (js "country") ;;
  when (appendCountry options
        && truthy (countryNames1 (key_of country_code))
        && negb (truthy country))
    (setp realInput (js "country") (countryNames1 (key_of country_code))) ;;
  realInput <- applyAliases realInput ;;
  template <- findTemplate realInput ;;
  realInput <- cleanupInput realInput (replace_of template) options ;;
  result <- renderTemplate template realInput ;;
  ret (match output options with
       | Some o =>
           if jeqb o (js "array")
           then Lines (filter nonempty (split_str nl result))
           else Text result
       | None => Text result
       end).

End Pipeline.

(** The object that a caller writes as a literal with string fields. *)
Definition literal (fields : list (jstring * jstring)) : obj :=
  fold_left (fun o p => set o (fst p) (VStr (snd p))) fields [].

(** [format(input, options)] on a heap that holds only the caller's
    object: the outcome, and the caller's object after the call. *)
Definition formatLiteral {tables : Tables} {host : Host}
  (fields : list (jstring * jstring)) (options : Options)
  : res formatted * obj :=
  let r := format 0 options [literal fields] in
  (fst r, read (snd r) 0).

End Formatter.

(* ================================================================== *)
(** * An excerpt of the tables *)
(* ================================================================== *)

(** The entries below are copied from the source.  They serve to run the
    formatter on concrete inputs; every input used with them reads only
    entries that the excerpt holds, or keys that the full tables lack too. *)
Module Sample.
Local Open Scope string_scope.

(** A literal of the source in which [\n] stands for a line feed. *)
Fixpoint unescape (s : jstring) : jstring :=
  match s with
  | 92%N :: 110%N :: s' => LF :: unescape s'
  | c :: s' => c :: unescape s'
  | [] => []
  end.
Definition jsn (s : string) : jstring := unescape (js s).

(** [templates.default] *)
Definition default_template : CountryTemplate := {|
  address_template := Some (jsn "{{{attention}}}\n{{{house}}}\n{{{floor}}} {{{door}}}\n{{#first}} {{{road}}} || {{{place}}} || {{{hamlet}}} {{/first}} {{{house_number}}}\n{{{addition}}}\n{{{postcode}}} {{#first}} {{{postal_city}}} || {{{town}}} || {{{city}}} || {{{village}}} || {{{municipality}}} || {{{hamlet}}} || {{{county}}} || {{{state}}} || {{/first}}\n{{{archipelago}}}\n{{{state}}} {{{county}}}\n{{{country}}}\n{{{infos}}}\n");
  fallback_template := Some (jsn "{{{attention}}}\n{{{house}}}\n{{{floor}}} {{{door}}}\n{{{road}}} {{{house_number}}}\n{{{addition}}}\n{{{place}}}\n{{#first}} {{{suburb}}} || {{{city_district}}} || {{{neighbourhood}}} || {{{island}}} {{/first}}\n{{#first}} {{{city}}} || {{{town}}} || {{{village}}} || {{{hamlet}}} || {{{municipality}}} {{/first}}\n{{#first}} || {{{county}}} || {{{state_district}}} || {{{state}}} || {{{region}}} || {{{island}}}, {{{archipelago}}} {{/first}}\n{{{state}}} {{{county}}}\n{{{country}}}\n{{{infos}}}\n");
  replace := None;
  postformat_replace := None;
  use_country := None;
  change_country := None;
  add_component := None |}.

(** [templates.generic1] *)
Definition generic1 : jstring :=
  jsn "{{{attention}}}\n{{{house}}}\n{{{floor}}} {{{door}}}\n{{#first}} {{{road}}} || {{{place}}} || {{{hamlet}}} {{/first}} {{{house_number}}}\n{{{addition}}}\n{{{postcode}}} {{#first}} {{{postal_city}}} || {{{town}}} || {{{city}}} || {{{village}}} || {{{municipality}}} || {{{hamlet}}} || {{{county}}} || {{{state}}} || {{/first}}\n{{{archipelago}}}\n{{{state}}} {{{county}}}\n{{{country}}}\n{{{infos}}}\n".

(** An entry that only redirects. *)
Definition redirection (use change add : option string) : entry :=
  Country {| address_template := None; fallback_template := None;
             replace := None; postformat_replace := None;
             use_country := option_map js use;
             change_country := option_map js change;
             add_component := option_map js add |}.

(** [AW], the template of Aruba. *)
Definition AW : entry :=
  Country {|
    address_template := Some (jsn "{{{attention}}}\n{{{house}}}\n{{{floor}}} {{{door}}}\n{{{road}}} {{{house_number}}}\n{{{addition}}}\n{{#first}} {{{city}}} || {{{town}}} || {{{village}}} || {{{hamlet}}} || {{{municipality}}} || {{{county}}} || {{{state_district}}} || {{{state}}} || {{/first}}\n{{{state}}} {{{county}}}\n{{{country}}}\n{{{infos}}}\n");
    fallback_template := None; replace := None; postformat_replace := None;
    use_country := None; change_country := None; add_component := None |}.

Definition own_templates : list (jstring * entry) :=
  [ (js "generic1", TemplateText generic1);
    (js "AS", redirection (Some "US") (Some "United States of America")
                          (Some "state=American Samoa"));
    (js "AW", AW);
    (js "BQ", redirection (Some "NL") (Some "Caribbean Netherlands") None);
    (js "GS", redirection (Some "GB") (Some "United Kingdom")
                          (Some "county=South Georgia"));
    (js "IM", redirection (Some "GB") None None);
    (js "SH", redirection (Some "GB") (Some "$state, United Kingdom") None) ].

Definition assoc {A} (l : list (jstring * A)) (k : jstring) : option A :=
  match find (fun p => jeqb (fst p) k) l with
  | Some p => Some (snd p)
  | None => None
  end.

#[export] Instance tables : Tables := {|
  templates_default := default_template;
  templates_own := assoc own_templates;
  stateCodes := fun _ => None;
  countyCodes := fun _ => None;
  country2lang := fun _ => None;
  abbreviations := fun _ => None;
  countryNames := [(js "FR", js "France")] |}.

Definition upper_char (c : char) : char := if is_lower c then (c - 32)%N else c.

(** A host for inputs in ASCII and tables without patterns: the case
    mapping of the ASCII letters; no pattern is ever compiled against the
    excerpt above, which has no [replace], [postformat_replace] or
    abbreviation rule. *)
#[export] Instance host : Host := {|
  toUpperCase := List.map upper_char;
  regexp_valid := fun _ => true;
  regexp_test := fun _ _ => false;
  regexp_replace := fun _ s _ => s |}.

End Sample.

(* ================================================================== *)
(** * Notions used in the statements *)
(* ================================================================== *)

Module Notions.
Import Formatter.

(** [options.output === 'array'] *)
Definition wantsArray (options : Options) : bool :=
  match output options with
  | Some o => jeqb o (js "array")
  | None => false
  end.

(** [!input[r]]: the field is absent, [undefined] or the empty string. *)
Definition missing (input : obj) (r : jstring) : bool :=
  negb (Store.truthy (get input r)).

(** The first code units of [p] lie in the given classes, one by one. *)
Fixpoint startsWith (classes : list (N -> bool)) (p : jstring) : bool :=
  match classes, p with
  | [], _ => true
  | f :: fs, c :: p' => f c && startsWith fs p'
  | _ :: _, [] => false
  end.

(** Five digits, a comma, five digits. *)
Definition fiveCommaFive : list (N -> bool) :=
  repeat is_digit 5 ++ [N.eqb 44] ++ repeat is_digit 5.

Definition bar : N := 124%N.
Definition bars : jstring := [bar; bar].
Definition sepText : jstring := js " || ".

(** The text holds two bars in a row. *)
Fixpoint has_bars (b : jstring) : bool :=
  match b with
  | [] => false
  | c :: b' =>
      (N.eqb bar c && match b' with d :: _ => N.eqb bar d | [] => false end)
      || has_bars b'
  end.

(** Text that is not empty, neither starts nor ends with white space and
    holds no [||]. *)
Definition clean (b : jstring) : bool :=
  nonempty b
  && negb (match b with c :: _ => is_space c | [] => false end)
  && negb (is_space (last b 0%N))
  && negb (has_bars b).

(** [c] leaves the object at [r0] as it is, whether it returns or throws. *)
Definition preserves {A} (r0 : ref) (c : M A) : Prop :=
  forall h, read (snd (c h)) r0 = read h r0.

(** [c] returns only values that satisfy [P]. *)
Definition returns {A} (P : A -> Prop) (c : M A) : Prop :=
  forall h a h', c h = (Ok a, h') -> P a.

(** The two calls that [renderTokens] with one more unit of fuel hands to
    the methods that render one token: [this.renderTokens] and
    [subRender]. *)
Definition inner (fuel : nat) (partials : Mustache.Partials) :=
  Mustache.renderTokens fuel partials.
Definition subRender (fuel : nat) (partials : Mustache.Partials)
  (template : jstring) (context : Mustache.Context) : res jstring :=
  Mustache.renderIn fuel partials template context.



(** A view with a list of three items. *)
Definition itemsContext : Mustache.Context :=
  Mustache.Ctx
    (Mustache.VObject
       [(js "items",
         Mustache.VArray [Mustache.VString (js "a"); Mustache.VString (js "b");
                          Mustache.VString (js "c")])])
    None.

(** [st'] lies [k] code units after [st] in the same subject. *)
Definition reaches (st st' : mstate) : Prop :=
  exists k, k <= List.length (snd st)
            /\ fst st' = fst st + k /\ snd st' = skipn k (snd st).

(** The characters that [escapeHtml] replaces other than the ampersand. *)
Definition markup (c : char) : bool :=
  existsb (N.eqb c) [60; 62; 34; 39; 47; 96; 61]%N.

(** The characters that [escapeHtml] replaces. *)
Definition special (c : char) : bool :=
  match Mustache.entity c with Some _ => true | None => false end.

(** The pattern that opens a tag under the default delimiters. *)
Definition opening : regex :=
  Mustache.openingTagRe
    (Mustache.compileTagPair (fst Mustache.default_tags) (snd Mustache.default_tags)).

(** The tokens that a run of text pushes, one for each code unit. *)
Fixpoint chars (value : jstring) (start : nat) : list (option Mustache.ftoken) :=
  match value with
  | [] => []
  | c :: value' =>
      Some (Mustache.FTok Mustache.SText [c] start (start + 1) None)
      :: chars value' (start + 1)
  end.

(** What [lookup] returns for the value found under a name: a function is
    called, anything else is handed on. *)
Definition resolved (v : Mustache.value) : res Mustache.value :=
  match v with
  | Mustache.VFunction call0 _ => call0
  | _ => Ok v
  end.

(** Every field of the object at [input] that has a value keeps it. *)
Definition keepsValues (input : ref) (h h' : heap) : Prop :=
  forall k, Store.truthy (get (read h input) k) = true ->
            get (read h' input) k = get (read h input) k.

(** A key is in snake case already. *)
Definition snakeCase (k : jstring) : bool := jeqb (toLowerCase (snake k)) k.

(** Every field of the object at [input] that has a value under a key in
    snake case keeps it. *)
Definition keepsSnake (input : ref) (h h' : heap) : Prop :=
  forall k, snakeCase k = true -> Store.truthy (get (read h input) k) = true ->
            get (read h' input) k = get (read h input) k.

(** The text of the value begins with [http://] or [https://], in any
    case. *)
Definition isUrl (v : val) : bool := re_test urlRegex (text v).

(** The object without its fields that hold a link, key by key. *)
Definition withoutUrls (l : list jstring) (o : obj) : obj :=
  fold_left (fun o k => if isUrl (get o k) then delete o k else o) l o.



End Notions.
Export Notions.

(* ================================================================== *)
(** * Basic facts *)
(* ================================================================== *)

Lemma jeqb_refl (a : jstring) : jeqb a a = true.
Proof.
  induction a as [|x a IH]; simpl; [reflexivity|].
  now rewrite N.eqb_refl, IH.
Qed.

Lemma jeqb_eq (a b : jstring) : jeqb a b = true <-> a = b.
Proof.
  split.
  - revert b; induction a as [|x a IH]; intros [|y b]; simpl; try discriminate; auto.
    intros H; apply andb_true_iff in H as [Hx Hr].
    apply N.eqb_eq in Hx; subst; f_equal; auto.
  - intros ->; apply jeqb_refl.
Qed.

Lemma jeqb_neq (a b : jstring) : jeqb a b = false <-> a <> b.
Proof.
  split.
  - intros H E; apply jeqb_eq in E; congruence.
  - intros H; destruct (jeqb a b) eqn:E; [apply jeqb_eq in E; contradiction|reflexivity].
Qed.

Lemma jeqb_sym (a b : jstring) : jeqb a b = jeqb b a.
Proof.
  destruct (jeqb a b) eqn:E.
  - apply jeqb_eq in E; subst; symmetry; apply jeqb_refl.
  - symmetry; apply jeqb_neq; apply jeqb_neq in E; congruence.
Qed.

Lemma nonempty_spec (s : jstring) : nonempty s = true <-> s <> [].
Proof. destruct s; simpl; split; intros H; try congruence; try discriminate; reflexivity. Qed.

Lemma filter_nonempty_all (l : list jstring) :
  Forall (fun x => x <> []) (filter nonempty l).
Proof.
  apply Forall_forall; intros x Hx.
  apply filter_In in Hx as [_ Hx]; now apply nonempty_spec.
Qed.

(** ** The heap monad *)

Lemma bind_ok {A B} (c : M A) (k : A -> M B) (h : heap) (b : B) (h' : heap) :
  Store.bind c k h = (Ok b, h') ->
  exists a h1, c h = (Ok a, h1) /\ k a h1 = (Ok b, h').
Proof.
  unfold Store.bind; destruct (c h) as [[a|e] h1]; intros E.
  - now exists a, h1.
  - discriminate.
Qed.

Lemma bind_run {A B} (c : M A) (k : A -> M B) (h : heap) (a : A) (h1 : heap) :
  c h = (Ok a, h1) -> Store.bind c k h = k a h1.
Proof. unfold Store.bind; now intros ->. Qed.

Ltac bind_inv H :=
  let a := fresh "a" in
  let h := fresh "h" in
  let Hc := fresh "Hc" in
  apply bind_ok in H as (a & h & Hc & H).

Import Formatter.

(* ================================================================== *)
(** * Objects and heaps *)
(* ================================================================== *)

Lemma put_same (k : jstring) (v : val) (o : obj) :
  own k o = Some v -> put k v o = o.
Proof.
  induction o as [|[k' v'] o IH]; simpl; [discriminate|].
  destruct (jeqb k k') eqn:E.
  - intros H; inversion H; subst. apply jeqb_eq in E; subst; reflexivity.
  - intros H; rewrite IH; auto.
Qed.

Lemma set_same (k : jstring) (v : val) (o : obj) :
  own k o = Some v -> set o k v = o.
Proof. unfold set; intros H; destruct (jeqb k proto_key); [reflexivity|now apply put_same]. Qed.

Lemma write_read (h : heap) (r : ref) : write h r (read h r) = h.
Proof.
  revert r; induction h as [|x h IH]; intros [|r]; simpl; try reflexivity.
  unfold read in *; simpl. now rewrite IH.
Qed.

Lemma read_write_same (h : heap) (r : ref) (o : obj) :
  r < List.length h -> read (write h r o) r = o.
Proof.
  unfold read. revert r; induction h as [|x h IH]; intros [|r] H; simpl in *; try lia; auto.
  apply IH; lia.
Qed.

Lemma write_write (h : heap) (r : ref) (o o' : obj) :
  write (write h r o) r o' = write h r o'.
Proof.
  revert r; induction h as [|x h IH]; intros [|r]; simpl; try reflexivity.
  now rewrite IH.
Qed.

Lemma get_VStr_own (o : obj) (k : jstring) (s : jstring) :
  get o k = VStr s -> own k o = Some (VStr s).
Proof. unfold get; destruct (own k o); intros H; [now subst|discriminate]. Qed.

Lemma own_put_same (k : jstring) (v : val) (o : obj) : own k (put k v o) = Some v.
Proof.
  induction o as [|[k' v'] o IH]; simpl.
  - now rewrite jeqb_refl.
  - destruct (jeqb k k') eqn:E; simpl; [now rewrite jeqb_refl|now rewrite E].
Qed.

Lemma own_put_other (k k' : jstring) (v : val) (o : obj) :
  k' <> k -> own k' (put k v o) = own k' o.
Proof.
  intros Hne. induction o as [|[k2 v2] o IH]; simpl.
  - apply jeqb_neq in Hne. now rewrite Hne.
  - destruct (jeqb k k2) eqn:E; simpl.
    + apply jeqb_eq in E; subst k2. apply jeqb_neq in Hne. now rewrite Hne.
    + now rewrite IH.
Qed.

Lemma get_set_same (o : obj) (k : jstring) (v : val) :
  k <> proto_key -> get (set o k v) k = v.
Proof.
  intros Hk. unfold set, get. apply jeqb_neq in Hk. rewrite Hk.
  now rewrite own_put_same.
Qed.

Lemma get_set_other (o : obj) (k k' : jstring) (v : val) :
  k' <> k -> get (set o k v) k' = get o k'.
Proof.
  intros Hne. unfold set, get. destruct (jeqb k proto_key); [reflexivity|].
  now rewrite own_put_other.
Qed.

Lemma length_write (h : heap) (r : ref) (o : obj) :
  List.length (write h r o) = List.length h.
Proof.
  revert r; induction h as [|x h IH]; intros [|r]; simpl; auto.
Qed.

(* ================================================================== *)
(** * The matcher *)
(* ================================================================== *)

Lemma exec_from_bol (r : regex) (q : nat) (s : jstring) :
  exec_from (Seq Bol r) (S q) s = None.
Proof.
  revert q; induction s as [|c s IH]; intros q; simpl; unfold match_at; simpl; auto.
Qed.

Lemma exec_bol (r : regex) (s : jstring) :
  re_exec (Seq Bol r) s
  = match match_at r 0 s with Some e => Some (0, e) | None => None end.
Proof.
  unfold re_exec. destruct s as [|c s]; simpl; unfold match_at; simpl;
    rewrite app_nil_r; destruct (rmatch r _) as [|[e ?] ?]; auto.
  apply exec_from_bol.
Qed.

Lemma rmatch_seq_assoc (a b c : regex) (st : mstate) :
  rmatch (Seq (Seq a b) c) st = rmatch (Seq a (Seq b c)) st.
Proof.
  cbn [rmatch]. induction (rmatch a st) as [|x l IH]; simpl; [reflexivity|].
  now rewrite flat_map_app, IH.
Qed.

Lemma rmatch_seq_eps (c : regex) (st : mstate) :
  rmatch (Seq Eps c) st = rmatch c st.
Proof. cbn [rmatch flat_map]. apply app_nil_r. Qed.

Lemma rmatch_chr_cons (f : N -> bool) (r : regex) (q : nat) (c : N) (s : jstring) :
  rmatch (Seq (Chr f) r) (q, c :: s) = if f c then rmatch r (S q, s) else [].
Proof. cbn [rmatch snd fst]. destruct (f c); cbn [flat_map]; [apply app_nil_r|reflexivity]. Qed.

Lemma rmatch_chr_nil (f : N -> bool) (r : regex) (q : nat) :
  rmatch (Seq (Chr f) r) (q, []) = [].
Proof. reflexivity. Qed.

Lemma startsWith_app (a b : list (N -> bool)) (p : jstring) :
  startsWith (a ++ b) p = startsWith a p && startsWith b (skipn (List.length a) p).
Proof.
  revert p; induction a as [|f a IH]; intros p; [reflexivity|].
  destruct p as [|c p]; cbn [app startsWith List.length skipn].
  - reflexivity.
  - rewrite IH. now rewrite andb_assoc.
Qed.

Lemma rmatch_chr (f : N -> bool) (r : regex) (q : nat) (s : jstring) :
  rmatch (Seq (Chr f) r) (q, s)
  = match s with
    | c :: s' => if f c then rmatch r (S q, s') else []
    | [] => []
    end.
Proof. destruct s; [reflexivity|apply rmatch_chr_cons]. Qed.

Lemma rmatch_seq_eps_r (a : regex) (st : mstate) :
  rmatch (Seq a Eps) st = rmatch a st.
Proof.
  cbn [rmatch]. induction (rmatch a st) as [|x l IH]; simpl; [reflexivity|now rewrite IH].
Qed.

Lemma rmatch_times (n : nat) (f : N -> bool) (r : regex) (q : nat) (p : jstring) :
  rmatch (Seq (Times n (Chr f)) r) (q, p)
  = if startsWith (repeat f n) p then rmatch r (q + n, skipn n p) else [].
Proof.
  revert q p; induction n as [|n IH]; intros q p.
  - cbn [Times repeat startsWith skipn]. rewrite rmatch_seq_eps. now rewrite Nat.add_0_r.
  - cbn [Times repeat]. rewrite rmatch_seq_assoc, rmatch_chr.
    destruct p as [|c p]; [reflexivity|].
    cbn [startsWith skipn]. destruct (f c); cbn [andb]; [|reflexivity].
    rewrite IH. now rewrite Nat.add_succ_r.
Qed.

Lemma dropWhile_length (p : N -> bool) (s : jstring) :
  List.length (dropWhile p s) <= List.length s.
Proof. induction s as [|c s IH]; simpl; [lia|]. destruct (p c); simpl; lia. Qed.

Lemma rmatch_class_cons (p : N -> bool) (q : nat) (c : N) (s : jstring) :
  rmatch (Chr p) (q, c :: s) = if p c then [(S q, s)] else [].
Proof. reflexivity. Qed.

(** Backtracking into a greedy run of a class is of no use when what
    follows cannot start inside the run. *)
Lemma iter_star_class_then (p : N -> bool) (r : regex) :
  (forall q c s, p c = true -> rmatch r (q, c :: s) = []) ->
  forall s n q, List.length s < n ->
    flat_map (rmatch r) (iter_star (rmatch (Chr p)) n (q, s))
    = rmatch r (q + (List.length s - List.length (dropWhile p s)), dropWhile p s).
Proof.
  intros Hr. induction s as [|c s IH]; intros n q Hn.
  - destruct n as [|n]; [lia|]. cbn. rewrite app_nil_r. now rewrite Nat.add_0_r.
  - destruct n as [|n]; [simpl in Hn; lia|].
    cbn [iter_star dropWhile]. rewrite rmatch_class_cons. destruct (p c) eqn:Hc.
    + cbn [flat_map fst]. rewrite app_nil_r.
      replace (S q =? q) with false by (symmetry; apply Nat.eqb_neq; lia).
      rewrite flat_map_app. cbn [flat_map]. rewrite Hr by exact Hc.
      rewrite !app_nil_r. rewrite IH by (simpl in Hn; lia).
      pose proof (dropWhile_length p s).
      f_equal; f_equal; cbn [List.length]; lia.
    + cbn [flat_map app]. rewrite app_nil_r. f_equal; f_equal; cbn [List.length]; lia.
Qed.

Lemma rmatch_star_class_then (p : N -> bool) (r : regex) (q : nat) (s : jstring) :
  (forall q c s, p c = true -> rmatch r (q, c :: s) = []) ->
  rmatch (Seq (Star (Chr p)) r) (q, s)
  = rmatch r (q + (List.length s - List.length (dropWhile p s)), dropWhile p s).
Proof.
  intros Hr. cbn [rmatch snd]. apply iter_star_class_then; [exact Hr|lia].
Qed.

(** A greedy run of a class reports the longest run first. *)
Lemma iter_star_class_head (p : N -> bool) :
  forall s n q, List.length s < n ->
    exists rest,
      iter_star (rmatch (Chr p)) n (q, s)
      = (q + (List.length s - List.length (dropWhile p s)), dropWhile p s) :: rest.
Proof.
  induction s as [|c s IH]; intros n q Hn.
  - destruct n as [|n]; [lia|]. cbn. rewrite Nat.add_0_r. now exists [].
  - destruct n as [|n]; [simpl in Hn; lia|].
    cbn [iter_star dropWhile]. rewrite rmatch_class_cons. destruct (p c) eqn:Hc.
    + cbn [flat_map fst]. rewrite app_nil_r.
      replace (S q =? q) with false by (symmetry; apply Nat.eqb_neq; lia).
      destruct (IH n (S q)) as [rest E]; [simpl in Hn; lia|].
      pose proof (dropWhile_length p s).
      exists (rest ++ [(q, c :: s)]).
      etransitivity; [apply (f_equal (fun l => l ++ [(q, c :: s)]) E)|].
      cbn [app]. f_equal; f_equal; cbn [List.length]; lia.
    + cbn [flat_map app]. exists []. f_equal; f_equal; cbn [List.length]; lia.
Qed.

Lemma rmatch_lit (l : jstring) (r : regex) (q : nat) (s : jstring) :
  rmatch (Seq (Lit l) r) (q, s)
  = if is_prefix l s then rmatch r (q + List.length l, skipn (List.length l) s) else [].
Proof.
  revert q s; induction l as [|x l IH]; intros q s.
  - cbn [Lit is_prefix List.length skipn]. rewrite rmatch_seq_eps. now rewrite Nat.add_0_r.
  - cbn [Lit]. unfold One. rewrite rmatch_seq_assoc, rmatch_chr.
    destruct s as [|c s]; [reflexivity|].
    cbn [is_prefix List.length skipn]. destruct (N.eqb x c); cbn [andb]; [|reflexivity].
    rewrite IH. now rewrite Nat.add_succ_r.
Qed.

Lemma rmatch_star_head (p : N -> bool) (q : nat) (s : jstring) :
  exists rest,
    rmatch (Star (Chr p)) (q, s)
    = (q + (List.length s - List.length (dropWhile p s)), dropWhile p s) :: rest.
Proof. apply iter_star_class_head. simpl. lia. Qed.

(** Where [separator] matches at the head of [s]. *)
Lemma match_at_separator (q : nat) (s : jstring) :
  match_at separator q s
  = if is_prefix bars (dropWhile is_space s)
    then Some (q + (List.length s
                    - List.length (dropWhile is_space (skipn 2 (dropWhile is_space s)))))
    else None.
Proof.
  unfold match_at, separator.
  rewrite rmatch_star_class_then.
  - change (js "||") with bars. rewrite rmatch_lit.
    destruct (is_prefix bars (dropWhile is_space s)) eqn:Hp; [|reflexivity].
    destruct (rmatch_star_head is_space
                (q + (List.length s - List.length (dropWhile is_space s)) + List.length bars)
                (skipn (List.length bars) (dropWhile is_space s)))
      as [rest E].
    rewrite E. f_equal.
    change (List.length bars) with 2.
    pose proof (dropWhile_length is_space s) as L1.
    pose proof (dropWhile_length is_space (skipn 2 (dropWhile is_space s))) as L2.
    pose proof (length_skipn 2 (dropWhile is_space s)) as L3.
    assert (L4 : 2 <= List.length (dropWhile is_space s)).
    { destruct (dropWhile is_space s) as [|a [|b t]]; cbn in Hp.
      - discriminate.
      - rewrite andb_false_r in Hp; discriminate.
      - cbn; lia. }
    lia.
  - intros q' c s' Hc. change (js "||") with bars. rewrite rmatch_lit.
    cbn [bars is_prefix]. destruct (N.eqb bar c) eqn:E; [|reflexivity].
    apply N.eqb_eq in E. subst c. vm_compute in Hc. discriminate.
Qed.

Lemma last_cons_cons (c d : N) (l : jstring) : last (c :: d :: l) 0%N = last (d :: l) 0%N.
Proof. reflexivity. Qed.

(** Inside text without [||] that does not end in white space, no
    separator starts. *)
Lemma no_separator_inside (d : jstring) :
  d <> [] -> is_space (last d 0%N) = false -> has_bars d = false ->
  is_prefix bars (dropWhile is_space (d ++ sepText)) = false.
Proof.
  induction d as [|c d IH]; intros Hne Hl Hb; [contradiction|].
  cbn [app dropWhile]. destruct (is_space c) eqn:Hc.
  - destruct d as [|c2 d]; [cbn in Hl; congruence|].
    apply IH; [discriminate|now rewrite last_cons_cons in Hl|].
    cbn [has_bars] in Hb. apply orb_false_iff in Hb as [_ Hb]. exact Hb.
  - cbn [bars is_prefix]. destruct (N.eqb bar c) eqn:E; [|reflexivity]. cbn [andb].
    destruct d as [|c2 d]; [reflexivity|].
    cbn [has_bars] in Hb. rewrite E in Hb. cbn [andb app] in Hb.
    apply orb_false_iff in Hb as [Hb _]. cbn [is_prefix app]. now rewrite Hb.
Qed.

Lemma split_loop_tail (piece : jstring) (q : nat) :
  split_loop separator 0 q piece sepText = [piece; []].
Proof.
  unfold sepText. cbn [js List.map list_ascii_of_string]. 
  change (List.map N_of_ascii (list_ascii_of_string " || ")) with [32%N; bar; bar; 32%N].
  cbn [split_loop]. rewrite match_at_separator. cbn.
  replace (q + 4 =? q) with false by (symmetry; apply Nat.eqb_neq; lia).
  replace (q + 4 - q - 1) with 3 by lia. reflexivity.
Qed.

Lemma split_loop_inside (d : jstring) :
  forall piece q,
    is_space (last d 0%N) = false -> has_bars d = false ->
    split_loop separator 0 q piece (d ++ sepText) = [piece ++ d; []].
Proof.
  induction d as [|c d IH]; intros piece q Hl Hb.
  - rewrite app_nil_r. apply split_loop_tail.
  - assert (Hn : match_at separator q ((c :: d) ++ sepText) = None).
    { rewrite match_at_separator, no_separator_inside; auto. discriminate. }
    cbn [app] in *. cbn [split_loop]. rewrite Hn.
    rewrite IH.
    + now rewrite <- app_assoc.
    + destruct d; [reflexivity|now rewrite last_cons_cons in Hl].
    + cbn [has_bars] in Hb. apply orb_false_iff in Hb as [_ Hb]. exact Hb.
Qed.

Lemma split_loop_scan (r : regex) (q : nat) (piece : jstring) (c : N) (rest : jstring) :
  split_loop r 0 q piece (c :: rest)
  = match match_at r q (c :: rest) with
    | Some e =>
        if e =? q then
          if is_empty piece then split_loop r 0 (S q) [c] rest
          else piece :: split_loop r 0 (S q) [c] rest
        else piece :: split_loop r (e - q - 1) (S q) [] rest
    | None => split_loop r 0 (S q) (piece ++ [c]) rest
    end.
Proof. reflexivity. Qed.

Lemma split_loop_skip (r : regex) (k q : nat) (piece : jstring) (c : N) (rest : jstring) :
  split_loop r (S k) q piece (c :: rest) = split_loop r k (S q) piece rest.
Proof. reflexivity. Qed.

Lemma leading_separator (c : N) (t : jstring) :
  is_space c = false ->
  match_at separator 0 (32%N :: bar :: bar :: 32%N :: c :: t) = Some 4.
Proof.
  intros Hc. rewrite match_at_separator.
  cbn [dropWhile]. replace (is_space 32) with true by reflexivity.
  cbn [dropWhile]. replace (is_space bar) with false by reflexivity.
  cbn [is_prefix bars]. rewrite N.eqb_refl. cbn [andb skipn dropWhile].
  replace (is_space 32) with true by reflexivity. rewrite Hc.
  cbn [List.length]. f_equal. lia.
Qed.

Lemma firstOf_between_separators (b : jstring) :
  clean b = true -> firstOf (sepText ++ b ++ sepText) = b.
Proof.
  unfold clean. intros H.
  apply andb_true_iff in H as [H Hb]. apply andb_true_iff in H as [H Hl].
  apply andb_true_iff in H as [Hne Hf].
  apply negb_true_iff in Hb, Hl, Hf.
  destruct b as [|c b]; [discriminate|].
  unfold firstOf, re_split.
  change (sepText ++ (c :: b) ++ sepText)
    with (32%N :: bar :: bar :: 32%N :: c :: b ++ sepText).
  rewrite split_loop_scan, leading_separator by exact Hf.
  cbn [Nat.eqb Nat.sub]. rewrite !split_loop_skip.
  change (c :: b ++ sepText) with ((c :: b) ++ sepText).
  rewrite split_loop_inside by assumption.
  reflexivity.
Qed.

Lemma multiCode_spec (p : jstring) :
  re_test multiCodeRegex p = startsWith fiveCommaFive p.
Proof.
  unfold re_test, multiCodeRegex. rewrite exec_bol. unfold match_at, fiveCommaFive, One.
  rewrite rmatch_times, rmatch_chr.
  rewrite !startsWith_app. rewrite repeat_length.
  destruct (startsWith (repeat is_digit 5) p); cbn [andb]; [|reflexivity].
  destruct (skipn 5 p) as [|c s]; [reflexivity|].
  cbn [startsWith List.length skipn]. destruct (N.eqb 44 c); cbn [andb]; [|reflexivity].
  rewrite <- rmatch_seq_eps_r, rmatch_times.
  destruct (startsWith (repeat is_digit 5) s); reflexivity.
Qed.









Section Directive.
Variables (pre name post : jstring).
Hypothesis Hpre : existsb (N.eqb dollar) pre = false.
Hypothesis Hname : forallb is_word name = true.
Hypothesis Hpost : match post with c :: _ => is_word c = false | [] => True end.







End Directive.


(* ================================================================== *)
(** * What the pipeline leaves alone *)
(* ================================================================== *)

Lemma read_write_other (h : heap) (r r0 : ref) (o : obj) :
  r <> r0 -> read (write h r o) r0 = read h r0.
Proof.
  unfold read. revert r r0; induction h as [|x h IH]; intros [|r] [|r0] Hne;
    simpl; try reflexivity; try congruence.
  apply IH; congruence.
Qed.

Lemma read_app_old (h : heap) (o : obj) (r0 : ref) :
  r0 < List.length h -> read (h ++ [o]) r0 = read h r0.
Proof. unfold read; intros H; now rewrite app_nth1. Qed.

Section Frame.
Variable r0 : ref.

Lemma preserves_ret {A} (a : A) : preserves r0 (ret a).
Proof. intros h; reflexivity. Qed.

Lemma preserves_throw {A} (e : error) : preserves r0 (@throw A e).
Proof. intros h; reflexivity. Qed.

Lemma preserves_lift {A} (c : res A) : preserves r0 (lift c).
Proof. intros h; reflexivity. Qed.

Lemma preserves_load (r : ref) : preserves r0 (load r).
Proof. intros h; reflexivity. Qed.

Lemma preserves_store (r : ref) (o : obj) : r <> r0 -> preserves r0 (store r o).
Proof. intros Hne h; simpl. now apply read_write_other. Qed.

Lemma preserves_bind {A B} (c : M A) (k : A -> M B) :
  preserves r0 c -> (forall a, preserves r0 (k a)) -> preserves r0 (Store.bind c k).
Proof.
  intros Hc Hk h. unfold Store.bind. specialize (Hc h).
  destruct (c h) as [[a|e] h1]; simpl in *; [|exact Hc].
  now rewrite Hk.
Qed.

Lemma preserves_bind_returns {A B} (P : A -> Prop) (c : M A) (k : A -> M B) :
  preserves r0 c -> returns P c -> (forall a, P a -> preserves r0 (k a)) ->
  preserves r0 (Store.bind c k).
Proof.
  intros Hc Hr Hk h. unfold Store.bind. specialize (Hc h). specialize (Hr h).
  destruct (c h) as [[a|e] h1]; simpl in *; [|exact Hc].
  rewrite Hk; [exact Hc|]. eapply Hr; reflexivity.
Qed.

Lemma preserves_getp (r : ref) (k : jstring) : preserves r0 (getp r k).
Proof. intros h; reflexivity. Qed.

Lemma preserves_keysp (r : ref) : preserves r0 (keysp r).
Proof. intros h; reflexivity. Qed.

Lemma preserves_setp (r : ref) (k : jstring) (v : val) : r <> r0 -> preserves r0 (setp r k v).
Proof. intros Hne h; simpl. now apply read_write_other. Qed.

Lemma preserves_delp (r : ref) (k : jstring) : r <> r0 -> preserves r0 (delp r k).
Proof. intros Hne h; simpl. now apply read_write_other. Qed.

Lemma preserves_when (b : bool) (c : M unit) : preserves r0 c -> preserves r0 (when b c).
Proof. destruct b; [auto|intros _; apply preserves_ret]. Qed.

Lemma preserves_for_each {A} (l : list A) (body : A -> M unit) :
  (forall x, preserves r0 (body x)) -> preserves r0 (for_each l body).
Proof.
  intros Hb. induction l as [|x l IH]; simpl; [apply preserves_ret|].
  apply preserves_bind; auto.
Qed.
End Frame.

Ltac frame_step :=
  first
    [ apply preserves_ret | apply preserves_throw | apply preserves_lift
    | apply preserves_load | apply preserves_getp | apply preserves_keysp
    | apply preserves_setp; assumption | apply preserves_delp; assumption
    | apply preserves_store; assumption
    | apply preserves_when | apply preserves_for_each; intros
    | apply preserves_bind; [|intros]
    | match goal with
      | |- preserves _ (match ?x with _ => _ end) => destruct x
      end ].
Ltac frame := repeat frame_step.
Ltac frame_with tac := repeat first [ tac | frame_step ].

Lemma returns_bind_ret {A B} (c : M A) (b : B) : returns (eq b) (Store.bind c (fun _ => ret b)).
Proof.
  intros h a h' H. apply bind_ok in H as (x & h1 & _ & H). now inversion H.
Qed.

Section FramePipeline.
Context {tables : Tables} {host : Host}.
Variables r r0 : ref.
Hypothesis Hne : r <> r0.

Lemma normalizeComponentKeys_preserves : preserves r0 (normalizeComponentKeys r).
Proof. unfold normalizeComponentKeys. frame. Qed.

Lemma changeCountry_preserves d : preserves r0 (changeCountry r d).
Proof. unfold changeCountry. frame. Qed.

Lemma addComponent_preserves d : preserves r0 (addComponent r d).
Proof. unfold addComponent. frame. Qed.

Lemma redirect_preserves code : preserves r0 (redirect r code).
Proof.
  unfold redirect.
  frame_with ltac:(first [apply changeCountry_preserves | apply addComponent_preserves]).
Qed.

Lemma determineCountryCode_preserves fb : preserves r0 (determineCountryCode r fb).
Proof. unfold determineCountryCode. frame_with ltac:(apply redirect_preserves). Qed.

Lemma applyAliases_preserves : preserves r0 (applyAliases r).
Proof. unfold applyAliases. frame. Qed.

Lemma cleanupInput_preserves repl options : preserves r0 (cleanupInput r repl options).
Proof.
  unfold cleanupInput, swapNumericCountry, applyReplacements, applyRule,
    deriveStateCode, deriveCountyCode, collectAttention, normalizePostcode,
    abbreviateAll, abbreviateComponent, dropUrls, compile.
  frame.
Qed.

Lemma findTemplate_preserves : preserves r0 (findTemplate r).
Proof. unfold findTemplate. frame. Qed.

Lemma renderTemplate_preserves t : preserves r0 (renderTemplate t r).
Proof. unfold renderTemplate. frame. Qed.

Lemma normalizeComponentKeys_returns : returns (eq r) (normalizeComponentKeys r).
Proof. apply returns_bind_ret. Qed.
End FramePipeline.


Lemma alloc_bind_preserves {B} (r0 : ref) (o : obj) (k : ref -> M B) (h : heap) :
  (forall r, r <> r0 -> preserves r0 (k r)) ->
  r0 < List.length h ->
  read (snd (Store.bind (alloc o) k h)) r0 = read h r0.
Proof.
  intros Hk Hr0. unfold Store.bind, alloc.
  rewrite Hk by lia. now apply read_app_old.
Qed.

(* ================================================================== *)
(** * The return value of [format] and the last resort of [renderTemplate] *)
(* ================================================================== *)

Section Shape.
Context {tables : Tables} {host : Host}.

Lemma renderTemplate_newline template input h r h' :
  renderTemplate template input h = (Ok r, h') ->
  exists render, r = render ++ nl.
Proof.
  unfold renderTemplate. intros H.
  bind_inv H. bind_inv H. unfold ret in H. inversion H; subst. eauto.
Qed.

Lemma renderTemplate_run (template : slot entry) (input : ref) (h : heap)
  (rendered : jstring) :
  renderedText template (read h input) = Ok rendered ->
  renderTemplate template input h
  = (Ok ((if is_empty (trim rendered) then lastResort (read h input) else rendered)
         ++ nl), h).
Proof.
  intros Hr. unfold renderTemplate, Store.bind, load, lift, ret. rewrite Hr. reflexivity.
Qed.

End Shape.

(** C1 (the code departs from the claim).  [format] does not return on every
    input: a country code that names one of the bare template strings of
    [templates] ([generic1] ... [fallback4]) makes [findTemplate] return that
    string, [template.replace] is then the method [String.prototype.replace],
    whose [length] is 2, and the loop over the replacements of [cleanupInput]
    reads [replacements[0][0]] on [undefined]: [format({countryCode:
    'generic1'})] throws a [TypeError] instead of returning a string that
    ends in a newline. *)
Theorem C1_format_throws_on_template_name :
  fst (@formatLiteral Sample.tables Sample.host
         [(js "countryCode", js "generic1")] default_options)
  = Throw TypeError.
Proof. vm_compute. reflexivity. Qed.




(* ================================================================== *)
(** * The cleanup pass *)
(* ================================================================== *)

(** C3 (the code departs from the claim).  [cleanupRender] is not
    idempotent: its patterns carry no [g] flag, so each of them rewrites one
    match per pass.  On ["a,,,b"] the pass that turns several commas into one
    leaves ["a, ,b"], and a second application gives ["a, b"]. *)
Theorem C3_cleanupRender_not_idempotent :
  cleanupRender (js "a,,,b") = js "a, ,b"
  /\ cleanupRender (js "a, ,b") = js "a, b"
  /\ cleanupRender (cleanupRender (js "a,,,b")) <> cleanupRender (js "a,,,b").
Proof.
  assert (E1 : cleanupRender (js "a,,,b") = js "a, ,b") by (vm_compute; reflexivity).
  assert (E2 : cleanupRender (js "a, ,b") = js "a, b") by (vm_compute; reflexivity).
  repeat split; auto.
  rewrite E1, E2. vm_compute. discriminate.
Qed.

(* ================================================================== *)
(** * Template selection *)
(* ================================================================== *)

(** C4.  [chooseTemplateText] selects the fallback body (the entry's, or
    that of [templates.default]) exactly when both [road] and [postcode] are
    missing from the input, and the primary body (the entry's, or that of
    [templates.default]) when one of them is there.  A field is missing when
    [!input[r]] holds, which is the case of an absent field. *)
Theorem C4_fallback_iff_both_missing {tables : Tables}
  (template : slot entry) (input : obj) :
  chooseTemplateText template input
  = (if missing input (js "road") && missing input (js "postcode")
     then or_else (entry_field fallback_template template)
                  (fallback_template templates_default)
     else or_else (entry_field address_template template)
                  (address_template templates_default))
  /\ forall r, own r input = None -> missing input r = true.
Proof.
  split.
  - unfold chooseTemplateText, required, threshold, missing.
    cbn [List.map filter List.length].
    destruct (Store.truthy (get input (js "road")));
      destruct (Store.truthy (get input (js "postcode"))); reflexivity.
  - intros r H. unfold missing, get. now rewrite H.
Qed.

(* ================================================================== *)
(** * The postcode *)
(* ================================================================== *)

(** C5, as stated, fails: ["1234,5678"] is two postcodes joined by a comma,
    and it is left as it is; only codes of five digits are told apart. *)
Lemma C5_counterexample :
  split_str [44%N] (js "1234,5678") = [js "1234"; js "5678"]
  /\ normalizePostcode 0 default_options [literal [(js "postcode", js "1234,5678")]]
     = (Ok tt, [literal [(js "postcode", js "1234,5678")]]).
Proof. split; vm_compute; reflexivity. Qed.

(** C5 (amended).  With the postcode cleanup enabled (it is disabled only by
    [cleanupPostcode === false]) and a postcode [p] that is not empty: [p] is
    deleted when it has more than 20 code units; else it is deleted when it
    holds a match of [\d+;\d+]; else, when it begins with five digits, a
    comma and five digits, it is cut to its first five digits; any other
    postcode -- other comma-joined values included -- is left as it is. *)
Theorem C5_normalizePostcode (input : ref) (options : Options) (h : heap)
  (p : jstring) :
  get (read h input) (js "postcode") = VStr p ->
  p <> [] ->
  cleanupPostcode options <> Some false ->
  normalizePostcode input options h
  = (Ok tt,
     if 20 <? List.length p
     then write h input (delete (read h input) (js "postcode"))
     else if re_test rangeRegex p
     then write h input (delete (read h input) (js "postcode"))
     else if startsWith fiveCommaFive p
     then write h input (set (read h input) (js "postcode") (VStr (firstn 5 p)))
     else h).
Proof.
  intros Hp Hne Hopt.
  assert (Hen : postcodeCleanupEnabled options = true).
  { unfold postcodeCleanupEnabled. destruct (cleanupPostcode options) as [[|]|]; congruence. }
  assert (Hset : set (read h input) (js "postcode") (VStr p) = read h input)
    by (apply set_same, get_VStr_own, Hp).
  rewrite <- multiCode_spec.
  unfold normalizePostcode, getp, setp, delp, when, Store.bind, load, store, ret.
  rewrite Hp, Hen. cbn [Store.truthy text andb].
  apply nonempty_spec in Hne. rewrite Hne. cbv beta iota delta [andb].
  rewrite Hset, write_read.
  destruct (20 <? List.length p); [reflexivity|].
  destruct (re_test rangeRegex p); [reflexivity|].
  destruct (re_test multiCodeRegex p); reflexivity.
Qed.

Lemma C5_normalizePostcode_witness :
  normalizePostcode 0 default_options [literal [(js "postcode", js "12345,67890")]]
  = (Ok tt, [literal [(js "postcode", js "12345")]]).
Proof.
  rewrite (@C5_normalizePostcode 0 default_options
             [literal [(js "postcode", js "12345,67890")]] (js "12345,67890")).
  - vm_compute. reflexivity.
  - reflexivity.
  - discriminate.
  - discriminate.
Defined.

(* ================================================================== *)
(** * Redirected countries *)
(* ================================================================== *)

Section C6.
Context {tables : Tables} {host : Host}.





End C6.



(* ================================================================== *)
(** * The caller's input *)
(* ================================================================== *)

Section C9.
Context {tables : Tables} {host : Host}.

Lemma returns_ref_bind {A} (r : ref) (c : M A) : returns (eq r) (Store.bind c (fun _ => ret r)).
Proof. apply returns_bind_ret. Qed.

Lemma determineCountryCode_returns r fb : returns (eq r) (determineCountryCode r fb).
Proof.
  intros h a h' H. unfold determineCountryCode in H.
  bind_inv H. bind_inv H.
  repeat match type of H with
         | context [match ?x with _ => _ end] => destruct x
         end;
    try (unfold ret in H; now inversion H).
  all: unfold redirect in H; do 5 (bind_inv H); unfold ret in H; now inversion H.
Qed.

Lemma applyAliases_returns r : returns (eq r) (applyAliases r).
Proof.
  intros h a h' H. unfold applyAliases in H. do 3 (bind_inv H). unfold ret in H; now inversion H.
Qed.

Lemma cleanupInput_returns r repl options : returns (eq r) (cleanupInput r repl options).
Proof.
  intros h a h' H. unfold cleanupInput in H. do 9 (bind_inv H). unfold ret in H; now inversion H.
Qed.

(** C9.  [format] leaves every object that exists when it is called as it
    is, the caller's input among them, whether it returns or throws: all of
    its writes go to the copy that it allocates first. *)
Theorem C9_format_keeps_input (input : ref) (options : Options) (h : heap) :
  input < List.length h ->
  forall r0, r0 < List.length h ->
    read (snd (format input options h)) r0 = read h r0.
Proof.
  intros Hin r0 Hr0.
  unfold format. unfold Store.bind at 1. cbn [load].
  apply alloc_bind_preserves; [|exact Hr0].
  intros r Hne.
  apply preserves_bind_returns with (P := eq r);
    [now apply normalizeComponentKeys_preserves|apply normalizeComponentKeys_returns|].
  intros ? <-.
  apply preserves_bind; [frame|intros _].
  apply preserves_bind_returns with (P := eq r);
    [now apply determineCountryCode_preserves|apply determineCountryCode_returns|].
  intros ? <-.
  apply preserves_bind; [frame|intros country_code].
  apply preserves_bind; [frame|intros country].
  apply preserves_bind; [frame|intros _].
  apply preserves_bind_returns with (P := eq r);
    [now apply applyAliases_preserves|apply applyAliases_returns|].
  intros ? <-.
  apply preserves_bind; [now apply findTemplate_preserves|intros template].
  apply preserves_bind_returns with (P := eq r);
    [now apply cleanupInput_preserves|apply cleanupInput_returns|].
  intros ? <-.
  apply preserves_bind; [now apply renderTemplate_preserves|intros result].
  frame.
Qed.
End C9.

Lemma C9_format_keeps_input_witness :
  read (snd (@format Sample.tables Sample.host 0 default_options
               [literal [(js "countryCode", js "sh"); (js "foo", js "bar");
                         (js "state", js "Saint Helena")]])) 0
  = literal [(js "countryCode", js "sh"); (js "foo", js "bar");
             (js "state", js "Saint Helena")].
Proof.
  apply (@C9_format_keeps_input Sample.tables Sample.host 0 default_options
           [literal [(js "countryCode", js "sh"); (js "foo", js "bar");
                     (js "state", js "Saint Helena")]]).
  - vm_compute. lia.
  - vm_compute. lia.
Defined.

(* ================================================================== *)
(** * Unknown components *)
(* ================================================================== *)



(* ================================================================== *)
(** * Sections of a template *)
(* ================================================================== *)

Import Mustache.

Section First.
Variables (fuel : nat) (partials : Partials).

(** C7 (amended).  A section under the function that [first] returns hands
    the raw text of its body to that function, which renders it once in the
    current context, splits the result at each [||] with the white space
    around it, drops the empty parts and gives the first part left, or the
    empty string when none is left.  Between two separators a text that is
    not empty, has no white space at either end and holds no [||] comes out
    as it is. *)
Theorem C7_first_section (name : jstring) (start finish close : nat)
  (children : list token) (context : Context) (template : jstring) :
  lookup context name = Ok firstSection ->
  let section := Section SHash name start finish children close in
  let body := slice template finish close in
  let out := renderSection (inner fuel partials) (subRender fuel partials)
                           section context template in
  (forall rendered, subRender fuel partials body context = Ok rendered ->
     out = Ok (Some (firstOf rendered)))
  /\ (forall e, subRender fuel partials body context = Throw e -> out = Throw e)
  /\ (forall rendered,
        firstOf rendered
        = match filter nonempty (re_split separator rendered) with
          | p :: _ => p
          | [] => []
          end)
  /\ (forall b, clean b = true -> firstOf (sepText ++ b ++ sepText) = b).
Proof.
  intros Hl section body out. subst out body section.
  unfold renderSection. rewrite Hl. cbn [Result.bind truthy negb firstSection].
  split; [|split; [|split]].
  - intros rendered ->. reflexivity.
  - intros e ->. reflexivity.
  - reflexivity.
  - apply firstOf_between_separators.
Qed.
End First.

(** C7, as stated, fails: with only [b] set, to [" X"], the body
    [{{{a}}} || {{{b}}} || {{{c}}}] renders as ["X"] under [first], while
    [{{{b}}}] alone renders as [" X"]. *)
Lemma C7_counterexample :
  let view := @templateInput Sample.tables (literal [(js "b", js " X")]) in
  render 100 (js "{{#first}}{{{a}}} || {{{b}}} || {{{c}}}{{/first}}") view None
  = Ok (js "X")
  /\ render 100 (js "{{{b}}}") view None = Ok (js " X").
Proof. split; vm_compute; reflexivity. Qed.

Lemma C7_first_section_witness :
  let context := Ctx (@templateInput Sample.tables (literal [(js "b", js "X")])) None in
  let template := js "{{#first}}{{{a}}} || {{{b}}} || {{{c}}}{{/first}}" in
  renderSection (inner 10 None) (subRender 10 None)
    (Section SHash (js "first") 0 10 [] 39) context template
  = Ok (Some (js "X")).
Proof.
  intros context template.
  destruct (@C7_first_section 10 None (js "first") 0 10 39 [] context template)
    as (H & _).
  - vm_compute. reflexivity.
  - apply (H (js " || X || ")). vm_compute. reflexivity.
Defined.

Section Sections.
Variables (fuel : nat) (partials : Partials).

Let inner := Notions.inner fuel partials.
Let subRender := Notions.subRender fuel partials.

Lemma renderTokens_step (tokens : list token) (context : Context) (template : jstring) :
  renderTokens (S fuel) partials tokens context template
  = renderEach inner subRender partials tokens context template [].
Proof. reflexivity. Qed.

Lemma renderChildren_all (children : list token) (context : Context)
  (template : jstring) (elements : list value) (outs : list jstring) :
  Forall2 (fun e s => inner children (push context e) template = Ok s) elements outs ->
  renderChildren inner children context template elements = Ok (List.concat outs).
Proof.
  induction 1 as [|e s es ss He _ IH]; [reflexivity|].
  cbn [renderChildren List.concat]. rewrite He. cbn [Result.bind]. now rewrite IH.
Qed.

(** C8.  A section token is rendered by the value looked up under its name:
    a falsy value and an empty array contribute nothing; an array of [n]
    elements renders the children [n] times, once per element in order, each
    time with that element pushed as a new context, and concatenates the
    results; a truthy object, string or number renders the children once with
    the value pushed as the context. *)
Theorem C8_section_by_value (name : jstring) (start finish close : nat)
  (children : list token) (context : Context) (template : jstring) (v : value) :
  lookup context name = Ok v ->
  let section := Section SHash name start finish children close in
  let out := renderSection inner subRender section context template in
  renderToken inner subRender partials section context template = out
  /\ (truthy v = false -> out = Ok None)
  /\ (v = VArray [] -> out = Ok (Some []))
  /\ (forall elements outs,
        v = VArray elements ->
        Forall2 (fun e s => inner children (push context e) template = Ok s)
                elements outs ->
        out = Ok (Some (List.concat outs)) /\ List.length outs = List.length elements)
  /\ (truthy v = true ->
      match v with VObject _ | VString _ | VNum _ => True | _ => False end ->
      out = Result.bind (inner children (push context v) template)
              (fun buffer => Ok (Some buffer))).
Proof.
  intros Hl section out. subst out section. cbn [renderToken].
  unfold renderSection. rewrite Hl. cbn [Result.bind].
  split; [reflexivity|]. split; [|split; [|split]].
  - now intros ->.
  - now intros ->.
  - intros elements outs -> HF. cbn [truthy negb].
    rewrite renderChildren_all with (outs := outs) by exact HF. split; [reflexivity|].
    symmetry; eapply Forall2_length; eauto.
  - intros Ht Hk. rewrite Ht. cbn [negb]. destruct v; try contradiction; reflexivity.
Qed.
End Sections.


Lemma C8_witness :
  renderSection (inner 1 None) (subRender 1 None)
    (Section SHash (js "items") 0 10 [Tag SAmp (js ".") 10 17; Tag SText (js ";") 17 18] 18)
    itemsContext (js "{{#items}}{{{.}}};{{/items}}")
  = Ok (Some (js "a;b;c;")).
Proof.
  destruct (@C8_section_by_value 1 None (js "items") 0 10 18
              [Tag SAmp (js ".") 10 17; Tag SText (js ";") 17 18]
              itemsContext (js "{{#items}}{{{.}}};{{/items}}")
              (VArray [VString (js "a"); VString (js "b"); VString (js "c")]) eq_refl)
    as (_ & _ & _ & H & _).
  destruct (H [VString (js "a"); VString (js "b"); VString (js "c")]
              [js "a;"; js "b;"; js "c;"] eq_refl) as [E _].
  - repeat constructor.
  - exact E.
Defined.

(* ================================================================== *)
(** * Further properties of the formatter and of the template engine *)
(* ================================================================== *)

(** ** Splitting at a character *)

Lemma match_at_one (c : char) (q : nat) (x : char) (rest : jstring) :
  match_at (Lit [c]) q (x :: rest) = if N.eqb c x then Some (S q) else None.
Proof.
  unfold match_at. cbn. destruct (N.eqb c x); reflexivity.
Qed.

Lemma split_loop_one_cons (c : char) (q : nat) (piece : jstring) (x : char)
  (rest : jstring) :
  split_loop (Lit [c]) 0 q piece (x :: rest)
  = if N.eqb c x then piece :: split_loop (Lit [c]) 0 (S q) [] rest
    else split_loop (Lit [c]) 0 (S q) (piece ++ [x]) rest.
Proof.
  cbn [split_loop]. rewrite match_at_one. destruct (N.eqb c x); [|reflexivity].
  replace (S q =? q) with false by (symmetry; apply Nat.eqb_neq; lia).
  replace (S q - q - 1) with 0 by lia. reflexivity.
Qed.

Lemma split_loop_one_nonempty (c : char) (rest : jstring) (q : nat) (piece : jstring) :
  split_loop (Lit [c]) 0 q piece rest <> [].
Proof.
  revert q piece. induction rest as [|x rest IH]; intros q piece.
  - discriminate.
  - rewrite split_loop_one_cons. destruct (N.eqb c x); [discriminate|apply IH].
Qed.

Lemma join_cons (glue x : jstring) (l : list jstring) :
  l <> [] -> join glue (x :: l) = x ++ glue ++ join glue l.
Proof. destruct l; [contradiction|reflexivity]. Qed.

Lemma join_split_loop_one (c : char) (rest : jstring) (q : nat) (piece : jstring) :
  join [c] (split_loop (Lit [c]) 0 q piece rest) = piece ++ rest.
Proof.
  revert q piece. induction rest as [|x rest IH]; intros q piece.
  - cbn. now rewrite app_nil_r.
  - rewrite split_loop_one_cons. destruct (N.eqb_spec c x) as [->|Hne].
    + rewrite join_cons by apply split_loop_one_nonempty. rewrite IH. reflexivity.
    + rewrite IH. now rewrite <- app_assoc.
Qed.

Lemma pieces_split_loop_one (c : char) (rest : jstring) (q : nat) (piece : jstring) :
  has_char c piece = false ->
  Forall (fun p => has_char c p = false) (split_loop (Lit [c]) 0 q piece rest).
Proof.
  revert q piece. induction rest as [|x rest IH]; intros q piece Hp.
  - repeat constructor. exact Hp.
  - rewrite split_loop_one_cons. destruct (N.eqb c x) eqn:E.
    + constructor; [exact Hp|]. now apply IH.
    + apply IH. unfold has_char in *. rewrite existsb_app, Hp. cbn. now rewrite E.
Qed.

Lemma split_loop_one_plain (c : char) (rest : jstring) (q : nat) (piece : jstring) :
  has_char c rest = false ->
  split_loop (Lit [c]) 0 q piece rest = [piece ++ rest].
Proof.
  revert q piece. induction rest as [|y rest IH]; intros q piece Hr.
  - cbn. now rewrite app_nil_r.
  - rewrite split_loop_one_cons. unfold has_char in Hr. cbn [existsb] in Hr.
    apply orb_false_elim in Hr as [Hy Hr]. rewrite Hy.
    rewrite IH by exact Hr. now rewrite <- app_assoc.
Qed.

Lemma join_split_str_one (c : char) (s : jstring) : join [c] (split_str [c] s) = s.
Proof.
  destruct s as [|x s]; [reflexivity|].
  unfold split_str, re_split. apply join_split_loop_one.
Qed.

Lemma pieces_split_str_one (c : char) (s : jstring) :
  Forall (fun p => has_char c p = false) (split_str [c] s).
Proof.
  destruct s as [|x s]; [repeat constructor|].
  unfold split_str, re_split. now apply pieces_split_loop_one.
Qed.

(** ** Trimming *)

Lemma dropWhile_idem (p : char -> bool) (s : jstring) :
  dropWhile p (dropWhile p s) = dropWhile p s.
Proof.
  induction s as [|c s IH]; [reflexivity|].
  cbn [dropWhile]. destruct (p c) eqn:E; [exact IH|]. cbn [dropWhile]. now rewrite E.
Qed.

Lemma dropWhile_head (p : char -> bool) (s : jstring) :
  match dropWhile p s with c :: _ => p c = false | [] => True end.
Proof.
  induction s as [|c s IH]; [exact I|].
  cbn [dropWhile]. destruct (p c) eqn:E; [exact IH|exact E].
Qed.

Lemma dropWhile_snoc (p : char -> bool) (l : jstring) (x : char) :
  p x = false -> dropWhile p (l ++ [x]) = dropWhile p l ++ [x].
Proof.
  intros Hx. induction l as [|y l IH]; cbn [dropWhile app].
  - now rewrite Hx.
  - destruct (p y); [exact IH|reflexivity].
Qed.

Lemma trimEnd_cons (x : char) (t : jstring) :
  is_space x = false -> exists u, trimEnd (x :: t) = x :: u.
Proof.
  intros Hx. unfold trimEnd. cbn [rev].
  rewrite dropWhile_snoc by exact Hx. rewrite rev_app_distr. cbn. eauto.
Qed.

Lemma trimEnd_idem (s : jstring) : trimEnd (trimEnd s) = trimEnd s.
Proof.
  unfold trimEnd. now rewrite rev_involutive, dropWhile_idem.
Qed.

Lemma trim_head (s : jstring) :
  match trim s with c :: _ => is_space c = false | [] => True end.
Proof.
  unfold trim, trimStart. pose proof (dropWhile_head is_space s) as H.
  destruct (dropWhile is_space s) as [|x t]; [exact I|].
  destruct (@trimEnd_cons x t H) as [u ->]. exact H.
Qed.

Lemma trim_last (s : jstring) :
  match rev (trim s) with c :: _ => is_space c = false | [] => True end.
Proof.
  unfold trim, trimEnd. rewrite rev_involutive. apply dropWhile_head.
Qed.

Lemma trim_idem (s : jstring) : trim (trim s) = trim s.
Proof.
  pose proof (trim_head s) as H.
  unfold trim at 1. unfold trimStart.
  destruct (trim s) as [|c u] eqn:E; [reflexivity|].
  cbn [dropWhile]. rewrite H. rewrite <- E. unfold trim. apply trimEnd_idem.
Qed.

(** ** The shape of the result *)

Lemma cleanupRender_trimmed (text : jstring) :
  trim (cleanupRender text) = cleanupRender text
  /\ match cleanupRender text with c :: _ => is_space c = false | [] => True end
  /\ match rev (cleanupRender text) with c :: _ => is_space c = false | [] => True end.
Proof.
  unfold cleanupRender.
  split; [apply trim_idem|]. split; [apply trim_head|apply trim_last].
Qed.

Section Result.
Context {tables : Tables} {host : Host}.

Lemma renderedText_cleaned (template : slot entry) (input : obj) (rendered : jstring) :
  renderedText template input = Ok rendered -> exists x, rendered = cleanupRender x.
Proof.
  unfold renderedText. destruct (chooseTemplateText template input); [|discriminate].
  destruct (render _ _ _ _) as [r|e]; [|discriminate]. cbn [Result.bind].
  destruct (match entry_field postformat_replace template with
            | Some rules => postformat rules (cleanupRender r)
            | None => Ok (cleanupRender r)
            end) as [x|e]; [|discriminate].
  cbn [Result.bind]. intros E. inversion E. eauto.
Qed.

Lemma renderTemplate_cleaned (template : slot entry) (input : ref) (h : heap)
  (r : jstring) (h' : heap) :
  renderTemplate template input h = (Ok r, h') ->
  h' = h /\ exists x, r = cleanupRender x ++ nl.
Proof.
  intros H. destruct (renderedText template (read h input)) as [rendered|e] eqn:E.
  - rewrite (renderTemplate_run _ _ _ E) in H. inversion H; subst. split; [reflexivity|].
    destruct (is_empty (trim rendered)).
    + unfold lastResort. eauto.
    + apply renderedText_cleaned in E as [x ->]. eauto.
  - unfold renderTemplate, Store.bind, load, lift in H. rewrite E in H. discriminate.
Qed.

(** X1.  Whenever [format] returns: without [output: 'array'] the result is
    a text followed by one newline, and the text has no white space at
    either end; with [output: 'array'] it is the list of the lines of that
    result that are not empty, none of which holds a newline. *)
Theorem X1_format_returns_text_or_lines (input : ref) (options : Options) (h : heap)
  (v : formatted) (h' : heap) :
  format input options h = (Ok v, h') ->
  exists text,
    trim text = text
    /\ match text with c :: _ => is_space c = false | [] => True end
    /\ match rev text with c :: _ => is_space c = false | [] => True end
    /\ if wantsArray options
       then exists lines,
              v = Lines lines
              /\ lines = filter nonempty (split_str nl (text ++ nl))
              /\ Forall (fun l => l <> [] /\ has_char LF l = false) lines
       else v = Text (text ++ nl).
Proof.
  unfold format. intros H.
  do 12 (bind_inv H).
  apply renderTemplate_cleaned in Hc10 as [_ [x ->]].
  pose proof (cleanupRender_trimmed x) as (T1 & T2 & T3).
  generalize dependent (cleanupRender x). intros text H T1 T2 T3.
  exists text. split; [exact T1|]. split; [exact T2|]. split; [exact T3|].
  unfold ret in H.
  assert (E : v = match output options with
                  | Some o =>
                      if jeqb o (js "array")
                      then Lines (filter nonempty (split_str nl (text ++ nl)))
                      else Text (text ++ nl)
                  | None => Text (text ++ nl)
                  end) by congruence.
  clear H. subst v. unfold wantsArray.
  destruct (output options) as [o|]; [destruct (jeqb o (js "array"))|]; try reflexivity.
  eexists. split; [reflexivity|]. split; [reflexivity|].
  apply Forall_forall. intros l Hl. apply filter_In in Hl as [Hl Hne].
  split.
  - destruct l; discriminate.
  - pose proof (pieces_split_str_one LF (text ++ nl)) as HF.
    rewrite Forall_forall in HF. now apply HF.
Qed.
End Result.

Lemma X1_format_returns_text_or_lines_witness :
  @format Sample.tables Sample.host 0 default_options
    [literal [(js "road", js "Main St"); (js "houseNumber", js "10")]]
  = (Ok (Text (js "Main St 10" ++ nl)),
     [literal [(js "road", js "Main St"); (js "houseNumber", js "10")];
      literal [(js "road", js "Main St"); (js "house_number", js "10")]])
  /\ exists text, trim text = text /\ Text (js "Main St 10" ++ nl) = Text (text ++ nl).
Proof.
  assert (E : @format Sample.tables Sample.host 0 default_options
                [literal [(js "road", js "Main St"); (js "houseNumber", js "10")]]
              = (Ok (Text (js "Main St 10" ++ nl)),
                 [literal [(js "road", js "Main St"); (js "houseNumber", js "10")];
                  literal [(js "road", js "Main St"); (js "house_number", js "10")]]))
    by (vm_compute; reflexivity).
  split; [exact E|].
  destruct (X1_format_returns_text_or_lines _ _ _ E) as (text & H1 & _ & _ & H2).
  exists text. split; [exact H1|exact H2].
Defined.

(** ** Duplicates *)







(** ** Loops over the keys *)

Section Loops.
Variable R : heap -> heap -> Prop.
Hypothesis R_refl : forall h, R h h.
Hypothesis R_trans : forall a b c, R a b -> R b c -> R a c.

Lemma for_each_steps {A} (l : list A) (body : A -> M unit) :
  (forall x h, exists h', body x h = (Ok tt, h') /\ R h h') ->
  forall h, exists h', for_each l body h = (Ok tt, h') /\ R h h'.
Proof.
  intros Hb. induction l as [|x l IH]; intros h; cbn [for_each].
  - exists h. split; [reflexivity|apply R_refl].
  - destruct (Hb x h) as (h1 & E1 & R1). destruct (IH h1) as (h2 & E2 & R2).
    exists h2. split; [|eapply R_trans; eauto].
    unfold Store.bind. now rewrite E1.
Qed.
End Loops.

Lemma read_out_of_range (h : heap) (r : ref) : List.length h <= r -> read h r = [].
Proof. unfold read. intros H. now apply nth_overflow. Qed.

Lemma get_read_in_range (h : heap) (r : ref) (k : jstring) :
  Store.truthy (get (read h r) k) = true -> r < List.length h.
Proof.
  intros H. destruct (Nat.lt_ge_cases r (List.length h)) as [Hlt|Hge]; [exact Hlt|].
  rewrite (read_out_of_range _ Hge) in H. discriminate.
Qed.

Lemma own_delete_other (o : obj) (k k' : jstring) :
  k' <> k -> own k' (delete o k) = own k' o.
Proof.
  intros Hne. induction o as [|[k2 v2] o IH]; [reflexivity|].
  cbn [delete own]. destruct (jeqb k k2) eqn:E.
  - apply jeqb_eq in E; subst k2. apply jeqb_neq in Hne. now rewrite Hne.
  - cbn [own]. now rewrite IH.
Qed.

Lemma get_delete_other (o : obj) (k k' : jstring) :
  k' <> k -> get (delete o k) k' = get o k'.
Proof. intros H. unfold get. now rewrite own_delete_other. Qed.


Lemma keepsValues_refl (input : ref) (h : heap) : keepsValues input h h.
Proof. intros k _. reflexivity. Qed.

Lemma keepsValues_trans (input : ref) (a b c : heap) :
  keepsValues input a b -> keepsValues input b c -> keepsValues input a c.
Proof.
  intros H1 H2 k Hk. rewrite <- (H1 k Hk). apply H2. now rewrite (H1 k Hk).
Qed.

(** Filling a field that has no value keeps the values. *)
Lemma keepsValues_fill (input : ref) (h : heap) (t : jstring) (v : val) :
  Store.truthy (get (read h input) t) = false ->
  keepsValues input h (write h input (set (read h input) t v)).
Proof.
  intros Ht k Hk. pose proof (get_read_in_range _ _ _ Hk) as Hin.
  rewrite read_write_same by exact Hin. apply get_set_other.
  intros ->. congruence.
Qed.

(** ** Aliases *)

Section LoopsFrom.
Variable R : heap -> heap -> Prop.
Hypothesis R_refl : forall h, R h h.
Hypothesis R_trans : forall a b c, R a b -> R b c -> R a c.

Lemma for_each_establishes {A} (P : A -> heap -> Prop) (h0 : heap) (l : list A)
  (body : A -> M unit) :
  (forall x h, R h0 h -> exists h', body x h = (Ok tt, h') /\ R h h' /\ P x h') ->
  (forall x h h', P x h -> R h h' -> P x h') ->
  forall h, R h0 h ->
    exists h', for_each l body h = (Ok tt, h') /\ R h h' /\ forall x, In x l -> P x h'.
Proof.
  intros Hb Hstable. induction l as [|x l IH]; intros h Hh; cbn [for_each].
  - exists h. split; [reflexivity|]. split; [apply R_refl|]. intros x [].
  - destruct (Hb x h Hh) as (h1 & E1 & R1 & P1).
    destruct (IH h1 (R_trans Hh R1)) as (h2 & E2 & R2 & P2).
    exists h2. split; [unfold Store.bind; now rewrite E1|].
    split; [eapply R_trans; eauto|].
    intros y [<-|Hy]; [|now apply P2]. eapply Hstable; eauto.
Qed.
End LoopsFrom.

Lemma alias_targets (country_code : val) (a : jstring * jstring) :
  In a (tailoredAliases country_code) -> snd a <> proto_key.
Proof.
  assert (H : forall a, In a aliases -> snd a <> proto_key).
  { assert (F : forallb (fun a => negb (jeqb (snd a) proto_key)) aliases = true)
      by (vm_compute; reflexivity).
    rewrite forallb_forall in F. intros x Hx E. specialize (F x Hx).
    rewrite E, jeqb_refl in F. discriminate. }
  unfold tailoredAliases.
  destruct (plain SMALL_DISTRICT_COUNTRIES (key_of country_code)); try apply H.
  intros Hin. apply in_app_or in Hin as [Hin|[<-|[]]].
  - apply filter_In in Hin as [Hin _]. now apply H.
  - vm_compute. discriminate.
Qed.

(** X3.  [applyAliases] only fills holes: it returns; every field that has a
    value when it is called has the same value afterwards; and where a key
    of the input has a value and an alias, the component that the alias
    names has a value afterwards. *)
Theorem X3_applyAliases_only_fills_holes (input : ref) (h : heap) :
  exists h',
    applyAliases input h = (Ok input, h')
    /\ (forall k, Store.truthy (get (read h input) k) = true ->
                  get (read h' input) k = get (read h input) k)
    /\ (forall key alias,
          In key (keys (read h input)) ->
          find (fun a => jeqb (fst a) key)
               (tailoredAliases (get (read h input) (js "country_code"))) = Some alias ->
          Store.truthy (get (read h input) key) = true ->
          Store.truthy (get (read h' input) (snd alias)) = true).
Proof.
  unfold applyAliases, keysp, getp, setp, when, Store.bind, load, store, ret.
  set (table := tailoredAliases (get (read h input) (js "country_code"))).
  match goal with
  | |- context [for_each ?l ?body h] =>
      destruct (@for_each_establishes (keepsValues input) (@keepsValues_refl input)
                  (@keepsValues_trans input) _
                  (fun key h' => forall alias,
                     find (fun a => jeqb (fst a) key) table = Some alias ->
                     Store.truthy (get (read h input) key) = true ->
                     Store.truthy (get (read h' input) (snd alias)) = true)
                  h l body) with (h := h) as (h' & E & HR & HP)
  end.
  - intros key h0 H0.
    destruct (find (fun a => jeqb (fst a) key) table) as [alias|] eqn:Ef;
      [|exists h0; split; [reflexivity|];
        split; [apply keepsValues_refl|discriminate]].
    apply find_some in Ef as [Hin Hk]. apply jeqb_eq in Hk.
    destruct (Store.truthy (get (read h0 input) (snd alias))) eqn:Ht; cbn [negb].
    + exists h0. split; [reflexivity|]. split; [apply keepsValues_refl|].
      intros a E _. now inversion E; subst.
    + eexists. split; [reflexivity|]. split; [now apply keepsValues_fill|].
      intros a E Hv. inversion E; subst a.
      pose proof (get_read_in_range _ _ _ Hv) as Hin'.
      assert (Hlen : input < List.length h0).
      { destruct (Nat.lt_ge_cases input (List.length h0)) as [Hlt|Hge]; [exact Hlt|].
        specialize (H0 key Hv). rewrite (read_out_of_range _ Hge) in H0.
        rewrite <- H0 in Hv. discriminate. }
      rewrite read_write_same by exact Hlen.
      rewrite get_set_same by (eapply alias_targets; exact Hin).
      rewrite Hk. now rewrite (H0 key Hv).
  - intros key h1 h2 HP HR alias Ef Hv.
    rewrite (HR (snd alias) (HP alias Ef Hv)). now apply HP.
  - apply keepsValues_refl.
  - exists h'. rewrite E. split; [reflexivity|]. split; [exact HR|].
    intros key alias Hin Ef Hv. now apply (HP key Hin alias).
Qed.

(** ** Keys in camel case *)



Lemma keepsSnake_refl (input : ref) (h : heap) : keepsSnake input h h.
Proof. intros k _ _. reflexivity. Qed.

Lemma keepsSnake_trans (input : ref) (a b c : heap) :
  keepsSnake input a b -> keepsSnake input b c -> keepsSnake input a c.
Proof.
  intros H1 H2 k Hs Hk. rewrite <- (H1 k Hs Hk). apply H2; [exact Hs|]. now rewrite (H1 k Hs Hk).
Qed.

(** X4.  [normalizeComponentKeys] returns, and leaves alone every field that
    has a value under a key that is in snake case already: what it moves or
    deletes are keys that change under the conversion, and known keys
    without a value. *)
Theorem X4_normalizeComponentKeys_keeps_snake_case (input : ref) (h : heap) :
  exists h',
    normalizeComponentKeys input h = (Ok input, h')
    /\ forall k, snakeCase k = true ->
                 Store.truthy (get (read h input) k) = true ->
                 get (read h' input) k = get (read h input) k.
Proof.
  unfold normalizeComponentKeys, keysp, getp, setp, delp, when, Store.bind, load,
    store, ret.
  match goal with
  | |- context [for_each ?l ?body h] =>
      destruct (@for_each_steps (keepsSnake input) (@keepsSnake_refl input)
                  (@keepsSnake_trans input) _ l body) with (h := h) as (h' & E & HR)
  end.
  - intros key h0.
    set (snaked := toLowerCase (snake key)).
    destruct (known snaked); cbn [andb];
      [|exists h0; split; [reflexivity|apply keepsSnake_refl]].
    destruct (Store.truthy (get (read h0 input) snaked)) eqn:Ht; cbn [negb];
      [exists h0; split; [reflexivity|apply keepsSnake_refl]|].
    assert (Hkey : forall k, snakeCase k = true ->
                     Store.truthy (get (read h0 input) k) = true -> k <> key).
    { intros k Hs Hk ->. unfold snakeCase in Hs. apply jeqb_eq in Hs.
      fold snaked in Hs. rewrite Hs in Ht. congruence. }
    destruct (Store.truthy (get (read h0 input) key)) eqn:Hv.
    + eexists. split; [reflexivity|]. intros k Hs Hk.
      pose proof (get_read_in_range _ _ _ Hk) as Hin.
      rewrite write_write, read_write_same by exact Hin.
      rewrite read_write_same by exact Hin.
      rewrite get_delete_other by (now apply Hkey).
      apply get_set_other. intros ->. congruence.
    + eexists. split; [reflexivity|]. intros k Hs Hk.
      pose proof (get_read_in_range _ _ _ Hk) as Hin.
      rewrite read_write_same by exact Hin.
      apply get_delete_other. now apply Hkey.
  - exists h'. rewrite E. split; [reflexivity|exact HR].
Qed.

(** ** The country code *)

Section CountryCode.
Context {tables : Tables} {host : Host}.

(** X5.  A country code that does not have two code units in upper case is
    ignored: [determineCountryCode] changes nothing, the code stays as the
    caller wrote it, in its own case, and [findTemplate] looks the template
    up under that text. *)
Theorem X5_determineCountryCode_ignores_other_lengths (input : ref) (h : heap)
  (s : jstring) :
  get (read h input) (js "country_code") = VStr s ->
  (s <> [] -> List.length (toUpperCase s) <> 2) ->
  determineCountryCode input None h = (Ok input, h)
  /\ findTemplate input h
     = (Ok (if truthy_entry (templates s) then templates s
            else Own (Country templates_default)), h).
Proof.
  intros Hs Hlen. split.
  - unfold determineCountryCode, getp, Store.bind, load, ret. rewrite Hs.
    destruct s as [|c s]; [reflexivity|]. cbn [nonempty is_empty negb].
    destruct (List.length (toUpperCase (c :: s)) =? 2) eqn:E; [|reflexivity].
    apply Nat.eqb_eq in E. exfalso. apply Hlen; [discriminate|exact E].
  - unfold findTemplate, getp, Store.bind, load, ret. rewrite Hs. reflexivity.
Qed.

(** X6.  A country code of two code units that does not redirect is stored
    in upper case, [UK] as [GB]; under [NL] the three islands get their own
    code and country name; nothing else is written. *)
Theorem X6_determineCountryCode_normalises (input : ref) (h : heap) (s : jstring)
  (island : option (jstring * jstring)) :
  input < List.length h ->
  get (read h input) (js "country_code") = VStr s ->
  s <> [] ->
  List.length (toUpperCase s) = 2 ->
  let o := read h input in
  let code := if jeqb (toUpperCase s) (js "UK") then js "GB" else toUpperCase s in
  entry_field use_country (templates code) = None ->
  dutchIsland code (get o (js "state")) = Ok island ->
  determineCountryCode input None h
  = (Ok input,
     write h input
       (set (match island with
             | Some (_, country) => set o (js "country") (VStr country)
             | None => o
             end)
            (js "country_code")
            (VStr (match island with Some (c, _) => c | None => code end)))).
Proof.
  intros Hin Hs Hne Hlen o code Hu Hi.
  unfold determineCountryCode, getp, Store.bind, load, ret. rewrite Hs.
  destruct s as [|c s]; [contradiction|]. cbn [nonempty is_empty negb].
  rewrite Hlen. cbn [Nat.eqb].
  unfold redirect. fold code. rewrite Hu.
  unfold getp, setp, Store.bind, lift, load, store, ret. fold o. rewrite Hi.
  destruct island as [[ic country]|].
  - repeat (rewrite ?write_write; rewrite ?read_write_same by exact Hin). reflexivity.
  - reflexivity.
Qed.
End CountryCode.

Lemma X5_determineCountryCode_ignores_other_lengths_witness :
  @determineCountryCode Sample.tables Sample.host 0 None
    [literal [(js "country_code", js "generic1")]]
  = (Ok 0, [literal [(js "country_code", js "generic1")]])
  /\ @findTemplate Sample.tables 0
       [literal [(js "country_code", js "generic1")]]
     = (Ok (Own (TemplateText Sample.generic1)),
        [literal [(js "country_code", js "generic1")]]).
Proof.
  destruct (@X5_determineCountryCode_ignores_other_lengths Sample.tables Sample.host 0
              [literal [(js "country_code", js "generic1")]] (js "generic1"))
    as [H1 H2].
  - reflexivity.
  - intros _. vm_compute. discriminate.
  - split; [exact H1|]. rewrite H2. reflexivity.
Defined.

Lemma X6_determineCountryCode_normalises_witness :
  @determineCountryCode Sample.tables Sample.host 0 None
    [literal [(js "country_code", js "uk"); (js "city", js "London")]]
  = (Ok 0, [literal [(js "country_code", js "GB"); (js "city", js "London")]]).
Proof.
  rewrite (@X6_determineCountryCode_normalises Sample.tables Sample.host 0
             [literal [(js "country_code", js "uk"); (js "city", js "London")]]
             (js "uk") None).
  - reflexivity.
  - vm_compute. lia.
  - reflexivity.
  - discriminate.
  - reflexivity.
  - reflexivity.
  - reflexivity.
Defined.

(** ** State and county codes *)

Section Codes.
Context {tables : Tables} {host : Host}.

(** X7.  [getStateCode] and [getCountyCode] by the table of the country:
    without a table there is no code; a country code that names a member of
    [Object.prototype] makes the call throw, since what is found under it
    has no [find]; a code that is returned is the key of an entry of the
    table whose name matches, and the first such entry decides. *)
Theorem X7_codeIn_by_table (table : jstring -> option (list subdivision))
  (wanted : jstring) (countryCode : val) :
  (table (key_of countryCode) = None -> inherited (key_of countryCode) = false ->
   codeIn table (VStr wanted) countryCode = Ok VUndef)
  /\ (table (key_of countryCode) = None -> inherited (key_of countryCode) = true ->
      codeIn table (VStr wanted) countryCode = Throw TypeError)
  /\ (forall code,
        codeIn table (VStr wanted) countryCode = Ok (VStr code) ->
        exists l before e after,
          table (key_of countryCode) = Some l
          /\ l = before ++ e :: after
          /\ key e = code
          /\ names_match e wanted = true
          /\ forallb (fun x => negb (names_match x wanted)) before = true)
  /\ getStateCode (VStr wanted) countryCode = codeIn stateCodes (VStr wanted) countryCode
  /\ getCountyCode (VStr wanted) countryCode = codeIn countyCodes (VStr wanted) countryCode.
Proof.
  split; [|split; [|split; [|split; reflexivity]]].
  - intros Ht Hi. unfold codeIn, plain. now rewrite Ht, Hi.
  - intros Ht Hi. unfold codeIn, plain. now rewrite Ht, Hi.
  - intros code. unfold codeIn, plain.
    destruct (table (key_of countryCode)) as [l|];
      [|destruct (inherited (key_of countryCode)); discriminate].
    destruct l as [|x l]; [discriminate|].
    destruct (find (fun e => names_match e wanted) (x :: l)) as [found|] eqn:Ef;
      [|discriminate].
    intros H; inversion H; subst code. clear H.
    exists (x :: l).
    revert Ef. generalize (x :: l) as l0. clear x l.
    induction l0 as [|y l0 IH]; [discriminate|].
    cbn [find]. destruct (names_match y wanted) eqn:Ey.
    + intros E; inversion E; subst y. exists [], found, l0. repeat split; auto.
    + intros E. destruct (IH E) as (before & e & after & _ & Hl & Hk & Hm & Hb).
      exists (y :: before), e, after. repeat split; auto.
      * cbn. now rewrite Hl.
      * cbn [forallb]. now rewrite Ey, Hb.
Qed.
End Codes.

(** ** Bare template strings *)

Section TemplateText.
Context {tables : Tables} {host : Host}.

(** X8.  When the country code of the input names one of the bare template
    strings of [templates], [findTemplate] returns that string, and
    [cleanupInput], given its [replace] -- the method of strings --, throws
    at the first key of the input: a [SyntaxError] when the key makes no
    pattern, a [TypeError] otherwise. *)
Theorem X8_cleanupInput_throws_on_template_text (input : ref) (options : Options)
  (h : heap) (s t : jstring) :
  get (read h input) (js "country_code") = VStr s ->
  templates s = Own (TemplateText t) ->
  t <> [] ->
  keys (read h input) <> [] ->
  findTemplate input h = (Ok (Own (TemplateText t)), h)
  /\ (fst (cleanupInput input (replace_of (Own (TemplateText t))) options h)
      = Throw TypeError
      \/ fst (cleanupInput input (replace_of (Own (TemplateText t))) options h)
         = Throw SyntaxError)
  /\ snd (cleanupInput input (replace_of (Own (TemplateText t))) options h) = h.
Proof.
  intros Hs Ht Hne Hk.
  assert (Hf : findTemplate input h = (Ok (Own (TemplateText t)), h)).
  { unfold findTemplate, getp, Store.bind, load, ret. rewrite Hs. cbn [key_of text].
    rewrite Ht. cbn [truthy_entry]. destruct t; [contradiction|reflexivity]. }
  split; [exact Hf|].
  assert (Hswap : swapNumericCountry input h = (Ok tt, h)).
  { unfold swapNumericCountry, getp, when, Store.bind, load, ret.
    unfold Number_isInteger. now rewrite andb_false_r. }
  unfold cleanupInput.
  rewrite (@bind_run _ _ (keysp input) _ h (keys (read h input)) h eq_refl).
  rewrite (@bind_run _ _ (swapNumericCountry input) _ h tt h Hswap).
  cbn [replace_of applyReplacements].
  destruct (keys (read h input)) as [|key rest]; [contradiction|].
  unfold Store.bind, compile, throw, ret.
  destruct (regexp_valid ([94%N] ++ key ++ [61%N])); cbn [fst snd];
    [split; [left|]; reflexivity|split; [right|]; reflexivity].
Qed.
End TemplateText.

Lemma X8_cleanupInput_throws_on_template_text_witness :
  fst (@cleanupInput Sample.tables Sample.host 0 StringReplace default_options
         [literal [(js "country_code", js "generic1"); (js "city", js "Springfield")]])
  = Throw TypeError.
Proof.
  destruct (@X8_cleanupInput_throws_on_template_text Sample.tables Sample.host 0
              default_options
              [literal [(js "country_code", js "generic1"); (js "city", js "Springfield")]]
              (js "generic1") Sample.generic1) as (_ & [H|H] & _).
  - reflexivity.
  - reflexivity.
  - discriminate.
  - discriminate.
  - exact H.
  - exfalso. vm_compute in H. discriminate.
Defined.

(** ** Washington, D.C. *)

Section Washington.
Context {tables : Tables} {host : Host}.

(** X9.  A state without a state code whose name begins with [Washington DC]
    -- with or without the comma and the full stops, in any case -- becomes
    the District of Columbia with the code [DC] and the city [Washington],
    whatever the country, the city given and the code that [getStateCode]
    has found for the name. *)
Theorem X9_deriveStateCode_washington (input : ref) (h : heap) (s : jstring) (code : val) :
  input < List.length h ->
  let o := read h input in
  Store.truthy (get o (js "state_code")) = false ->
  get o (js "state") = VStr s ->
  re_test washingtonRegex s = true ->
  getStateCode (VStr s) (get o (js "country_code")) = Ok code ->
  exists o',
    deriveStateCode input h = (Ok tt, write h input o')
    /\ get o' (js "state_code") = VStr (js "DC")
    /\ get o' (js "state") = VStr (js "District of Columbia")
    /\ get o' (js "city") = VStr (js "Washington")
    /\ forall k, k <> js "state_code" -> k <> js "state" -> k <> js "city" ->
                 get o' k = get o k.
Proof.
  intros Hin o Hc Hs Hw Hg. subst o.
  assert (Hne : s <> []) by (intros ->; vm_compute in Hw; discriminate).
  set (o := read h input) in *.
  exists (set (set (set (set o (js "state_code") code) (js "state_code") (VStr (js "DC")))
                   (js "state") (VStr (js "District of Columbia")))
              (js "city") (VStr (js "Washington"))).
  split; [|split; [|split; [|split]]].
  - unfold deriveStateCode, getp, setp, when, Store.bind, lift, load, store, ret.
    subst o. rewrite Hc, Hs. cbn [Store.truthy negb andb].
    destruct s as [|c s]; [contradiction|]. cbn [nonempty is_empty negb].
    rewrite Hg, Hw.
    repeat (rewrite ?write_write; rewrite ?read_write_same by exact Hin).
    reflexivity.
  - rewrite !get_set_other by (vm_compute; discriminate).
    apply get_set_same. vm_compute; discriminate.
  - rewrite get_set_other by (vm_compute; discriminate).
    apply get_set_same. vm_compute; discriminate.
  - apply get_set_same. vm_compute; discriminate.
  - intros k H1 H2 H3. now rewrite !get_set_other by assumption.
Qed.
End Washington.

Lemma X9_deriveStateCode_washington_witness :
  @deriveStateCode Sample.tables Sample.host 0
    [literal [(js "state", js "washington, d.c."); (js "country_code", js "FR")]]
  = (Ok tt, [literal [(js "state", js "District of Columbia");
                      (js "country_code", js "FR");
                      (js "state_code", js "DC");
                      (js "city", js "Washington")]]).
Proof.
  destruct (@X9_deriveStateCode_washington Sample.tables Sample.host 0
              [literal [(js "state", js "washington, d.c."); (js "country_code", js "FR")]]
              (js "washington, d.c.") VUndef) as (o' & E & _).
  - vm_compute. lia.
  - reflexivity.
  - reflexivity.
  - vm_compute. reflexivity.
  - reflexivity.
  - rewrite E. vm_compute in E. inversion E. reflexivity.
Defined.

(** ** Links *)



Lemma insert_index_In (x y : N * jstring) (l : list (N * jstring)) :
  In y (insert_index x l) <-> y = x \/ In y l.
Proof.
  induction l as [|z l IH]; cbn [insert_index].
  - cbn. intuition.
  - destruct (N.leb (fst x) (fst z)); cbn [In]; [intuition|].
    rewrite IH. intuition.
Qed.

Lemma keys_In (o : obj) (k : jstring) : In k (keys o) <-> In k (List.map fst o).
Proof.
  unfold keys. rewrite in_app_iff, filter_In.
  set (names := List.map fst o).
  assert (H : forall l, In k (List.map snd
                (fold_right (fun k acc => match array_index k with
                                          | Some n => insert_index (n, k) acc
                                          | None => acc
                                          end) [] l))
              <-> In k l /\ array_index k <> None).
  { induction l as [|x l IH]; cbn [fold_right].
    - cbn. intuition.
    - destruct (array_index x) as [n|] eqn:E.
      + rewrite in_map_iff. split.
        * intros ([n' k'] & Hk & Hin). cbn in Hk; subst k'.
          apply insert_index_In in Hin as [Hin|Hin].
          -- inversion Hin; subst. split; [now left|congruence].
          -- assert (Hm : In k (List.map snd
                  (fold_right (fun k acc => match array_index k with
                                            | Some n => insert_index (n, k) acc
                                            | None => acc
                                            end) [] l)))
               by (apply in_map_iff; exists (n', k); auto).
             apply IH in Hm as [Hm Hn]. split; [now right|exact Hn].
        * intros [[->|Hin] Hn].
          -- exists (n, k). split; [reflexivity|]. apply insert_index_In. now left.
          -- assert (Hm : In k l /\ array_index k <> None) by auto.
             apply IH in Hm. apply in_map_iff in Hm as ([n' k'] & Hk & Hm).
             cbn in Hk; subst k'. exists (n', k). split; [reflexivity|].
             apply insert_index_In. now right.
      + rewrite IH. split.
        * intros [Hin Hn]. split; [now right|exact Hn].
        * intros [[->|Hin] Hn]; [congruence|auto]. }
  rewrite H. destruct (array_index k) eqn:E; split; intros Hx.
  - destruct Hx as [[Hx _]|[_ Hx]]; [exact Hx|discriminate].
  - left. split; [exact Hx|discriminate].
  - destruct Hx as [[_ Hx]|[Hx _]]; [congruence|exact Hx].
  - right. split; [exact Hx|reflexivity].
Qed.

Lemma own_None (o : obj) (k : jstring) : own k o = None <-> ~ In k (List.map fst o).
Proof.
  induction o as [|[k' v] o IH]; cbn [own List.map In fst].
  - intuition.
  - destruct (jeqb k k') eqn:E.
    + apply jeqb_eq in E. subst. split; [discriminate|]. intros H. contradiction H. now left.
    + apply jeqb_neq in E. rewrite IH. split.
      * intros H [Hk|Hk]; [congruence|contradiction].
      * intros H Hk. apply H. now right.
Qed.

Lemma own_delete_same (o : obj) (k : jstring) :
  NoDup (List.map fst o) -> own k (delete o k) = None.
Proof.
  induction o as [|[k' v] o IH]; intros Hnd; [reflexivity|].
  cbn [List.map fst] in Hnd. inversion Hnd as [|? ? Hnot Hnd']; subst.
  cbn [delete]. destruct (jeqb k k') eqn:E.
  - apply jeqb_eq in E; subst k'. now apply own_None.
  - cbn [own]. rewrite E. now apply IH.
Qed.

Lemma delete_keys_incl (o : obj) (k x : jstring) :
  In x (List.map fst (delete o k)) -> In x (List.map fst o).
Proof.
  induction o as [|[k' v] o IH]; [auto|].
  cbn [delete]. destruct (jeqb k k'); cbn [List.map fst In]; intuition.
Qed.

Lemma delete_NoDup (o : obj) (k : jstring) :
  NoDup (List.map fst o) -> NoDup (List.map fst (delete o k)).
Proof.
  induction o as [|[k' v] o IH]; intros Hnd; [constructor|].
  cbn [List.map fst] in Hnd. inversion Hnd as [|? ? Hnot Hnd']; subst.
  cbn [delete]. destruct (jeqb k k'); [exact Hnd'|].
  cbn [List.map fst]. constructor; [|now apply IH].
  intros Hin. apply Hnot. eapply delete_keys_incl; eauto.
Qed.

Lemma withoutUrls_get (l : list jstring) (o : obj) (k : jstring) :
  NoDup (List.map fst o) ->
  get (withoutUrls l o) k
  = if isUrl (get o k) && existsb (jeqb k) l then VUndef else get o k.
Proof.
  revert o. induction l as [|x l IH]; intros o Hnd.
  - cbn. now rewrite andb_false_r.
  - cbn [withoutUrls fold_left existsb].
    change (fold_left (fun o k => if isUrl (get o k) then delete o k else o) l ?o')
      with (withoutUrls l o').
    destruct (jeqb k x) eqn:E.
    + apply jeqb_eq in E; subst x. cbn [orb]. rewrite andb_true_r.
      destruct (isUrl (get o k)) eqn:Eu.
      * rewrite IH by now apply delete_NoDup.
        assert (Hd : get (delete o k) k = VUndef)
          by (unfold get; now rewrite own_delete_same).
        rewrite Hd. destruct (isUrl VUndef && existsb (jeqb k) l); reflexivity.
      * rewrite IH by exact Hnd. now rewrite Eu.
    + cbn [orb]. apply jeqb_neq in E.
      destruct (isUrl (get o x)).
      * rewrite IH by now apply delete_NoDup. now rewrite get_delete_other.
      * now apply IH.
Qed.

Lemma dropUrls_run (input : ref) (l : list jstring) (h : heap) :
  input < List.length h ->
  for_each l (fun key =>
    Store.bind (getp input key) (fun v =>
      when (re_test urlRegex (text v)) (delp input key))) h
  = (Ok tt, write h input (withoutUrls l (read h input))).
Proof.
  intros Hin. revert h Hin. induction l as [|x l IH]; intros h Hin.
  - cbn. unfold ret. now rewrite write_read.
  - cbn [for_each withoutUrls fold_left].
    unfold Store.bind at 1. unfold getp, delp, when. unfold Store.bind at 1 2.
    cbn [load ret]. fold (isUrl (get (read h input) x)).
    destruct (isUrl (get (read h input) x)).
    + unfold Store.bind at 1. cbn [load store].
      rewrite IH by (now rewrite length_write).
      rewrite write_write, read_write_same by exact Hin. reflexivity.
    + cbn [ret]. now apply IH.
Qed.

(** X10.  [dropUrls] -- the last step of [cleanupInput] -- returns, removes
    every field whose text begins with [http://] or [https://] (in any
    case), and keeps every other field as it is. *)
Theorem X10_dropUrls_removes_exactly_the_links (input : ref) (h : heap) :
  input < List.length h ->
  NoDup (List.map fst (read h input)) ->
  exists h',
    dropUrls input h = (Ok tt, h')
    /\ forall k, get (read h' input) k
                 = if isUrl (get (read h input) k) then VUndef
                   else get (read h input) k.
Proof.
  intros Hin Hnd. eexists. split.
  - unfold dropUrls. unfold keysp. unfold Store.bind at 1 2. cbn [load ret].
    apply dropUrls_run. exact Hin.
  - intros k. rewrite read_write_same by exact Hin.
    rewrite withoutUrls_get by exact Hnd.
    destruct (isUrl (get (read h input) k)) eqn:Eu; [|reflexivity]. cbn [andb].
    destruct (existsb (jeqb k) (keys (read h input))) eqn:Ek; [reflexivity|].
    assert (Hown : own k (read h input) = None).
    { apply own_None. intros Hk. apply keys_In in Hk.
      assert (Hex : existsb (jeqb k) (keys (read h input)) = true).
      { apply existsb_exists. exists k. split; [exact Hk|apply jeqb_refl]. }
      congruence. }
    unfold get. now rewrite Hown.
Qed.

Lemma X10_dropUrls_removes_exactly_the_links_witness :
  dropUrls 0 [literal [(js "road", js "Main St"); (js "website", js "HTTPS://example.org")]]
  = (Ok tt, [literal [(js "road", js "Main St")]]).
Proof.
  destruct (@X10_dropUrls_removes_exactly_the_links 0
              [literal [(js "road", js "Main St"); (js "website", js "HTTPS://example.org")]])
    as (h' & E & _).
  - vm_compute. lia.
  - vm_compute. repeat constructor; cbn; intuition discriminate.
  - rewrite E. vm_compute in E. inversion E. reflexivity.
Defined.

(** ** The view of a template *)

Lemma get_assign_loop (s : obj) (l : list jstring) (t : obj) (k : jstring) :
  k <> proto_key ->
  get (fold_left (fun t k' => set t k' (get s k')) l t) k
  = if existsb (jeqb k) l then get s k else get t k.
Proof.
  intros Hk. revert t. induction l as [|x l IH]; intros t; [reflexivity|].
  cbn [fold_left existsb]. rewrite IH. destruct (jeqb k x) eqn:E; cbn [orb].
  - apply jeqb_eq in E; subst x. rewrite get_set_same by exact Hk.
    now destruct (existsb (jeqb k) l).
  - apply jeqb_neq in E. now rewrite get_set_other.
Qed.

Lemma get_assign (o : obj) (k : jstring) :
  k <> proto_key -> get (assign [] o) k = get o k.
Proof.
  intros Hk. unfold assign. rewrite get_assign_loop by exact Hk.
  destruct (existsb (jeqb k) (keys o)) eqn:Ek; [reflexivity|].
  assert (Hown : own k o = None).
  { apply own_None. intros Hin. apply keys_In in Hin.
    assert (Hex : existsb (jeqb k) (keys o) = true).
    { apply existsb_exists. exists k. split; [exact Hin|apply jeqb_refl]. }
    congruence. }
  unfold get. now rewrite Hown.
Qed.

Lemma field_putField_same (k : jstring) (v : value) (fs : list (jstring * value)) :
  field k (putField k v fs) = Some v.
Proof.
  induction fs as [|[k' v'] fs IH]; cbn [putField field].
  - now rewrite jeqb_refl.
  - destruct (jeqb k k') eqn:E; cbn [field]; [now rewrite jeqb_refl|now rewrite E].
Qed.

Lemma field_putField_other (k k' : jstring) (v : value) (fs : list (jstring * value)) :
  k' <> k -> field k' (putField k v fs) = field k' fs.
Proof.
  intros Hne. induction fs as [|[k2 v2] fs IH]; cbn [putField field].
  - apply jeqb_neq in Hne. now rewrite Hne.
  - destruct (jeqb k k2) eqn:E; cbn [field].
    + apply jeqb_eq in E; subst k2. apply jeqb_neq in Hne. now rewrite Hne.
    + now rewrite IH.
Qed.

Lemma field_map (f : val -> value) (o : obj) (k : jstring) :
  field k (List.map (fun p => (fst p, f (snd p))) o) = option_map f (own k o).
Proof.
  induction o as [|[k' v] o IH]; [reflexivity|].
  cbn [List.map field own fst snd]. destruct (jeqb k k'); [reflexivity|exact IH].
Qed.

Section View.
Context {tables : Tables}.

(** X11.  In the view that [renderTemplate] hands to the renderer the name
    [first] is always the helper, whatever the input holds under that name,
    and every other plain name stands for the field of the input: a
    [{{{name}}}] tag writes the text of the field, and nothing for a field
    that is absent. *)
Theorem X11_template_names_resolve (input : obj) (name : jstring) :
  let context := Ctx (templateInput input) None in
  lookup context (js "first") = Ok firstSection
  /\ (jeqb name [dot] = false -> dotted name = false ->
      name <> js "first" -> inherited name = false ->
      lookup context name = Ok (viewOf (get input name))
      /\ unescapedValue name context
         = Ok (match get input name with
               | VUndef => None
               | VStr s => Some s
               | VNames => Some (js "[object Object]")
               end)).
Proof.
  intros context. split.
  - unfold lookup, context, templateInput. cbn [jeqb js List.map list_ascii_of_string
      N_of_ascii andb]. cbn. rewrite field_putField_same. reflexivity.
  - intros Hdot Hdotted Hfirst Hinh.
    assert (Hproto : name <> proto_key).
    { intros ->. vm_compute in Hinh. discriminate. }
    assert (Hl : lookup context name = Ok (viewOf (get input name))).
    { unfold lookup, context, templateInput. rewrite Hdot.
      cbn [lookup_walk]. rewrite Hdotted. cbn [not_nullish Result.bind getProperty
        hasProperty fst snd].
      rewrite field_putField_other by exact Hfirst.
      rewrite field_map. rewrite <- (get_assign input Hproto).
      unfold get. destruct (own name (assign [] input)) as [v|]; cbn [option_map].
      - cbn [Result.bind]. destruct v; reflexivity.
      - reflexivity. }
    split; [exact Hl|].
    unfold unescapedValue. rewrite Hl. cbn [Result.bind].
    destruct (get input name); reflexivity.
Qed.
End View.

Lemma X11_template_names_resolve_witness :
  unescapedValue (js "road")
    (Ctx (@templateInput Sample.tables
            (literal [(js "road", js "Main St"); (js "first", js "x")])) None)
  = Ok (Some (js "Main St")).
Proof.
  destruct (@X11_template_names_resolve Sample.tables
              (literal [(js "road", js "Main St"); (js "first", js "x")]) (js "road"))
    as [_ H].
  destruct H as [_ H];
    [reflexivity|reflexivity|discriminate|reflexivity|exact H].
Defined.

Lemma escapeHtml_app (a b : jstring) :
  escapeHtml (a ++ b) = escapeHtml a ++ escapeHtml b.
Proof. unfold escapeHtml. apply flat_map_app. Qed.

Lemma entity_cases (c : char) :
  match entity c with
  | Some e => special c = true /\ In e (List.map js ["&amp;"; "&lt;"; "&gt;"; "&quot;"; "&#39;"; "&#x2F;"; "&#x60;"; "&#x3D;"]%string)
  | None => special c = false /\ markup c = false /\ c <> 38%N
  end.
Proof.
  unfold special, entity, markup.
  repeat match goal with
         | |- context [N.eqb c ?n] => destruct (N.eqb_spec c n); [subst; cbn; intuition auto|]
         end.
  cbn. repeat split; try reflexivity.
  repeat match goal with
         | H : c <> ?n |- context [N.eqb c ?n] => apply N.eqb_neq in H; rewrite H
         end.
  all: try reflexivity; try assumption.
Qed.

Lemma escapeHtml_length (s : jstring) : List.length s <= List.length (escapeHtml s).
Proof.
  induction s as [|c s IH]; [reflexivity|].
  change (escapeHtml (c :: s))
    with ((match entity c with Some e => e | None => [c] end) ++ escapeHtml s).
  rewrite length_app. cbn [List.length].
  pose proof (entity_cases c) as H. destruct (entity c) as [e|].
  - destruct H as [_ H]. cbn in H.
    repeat (destruct H as [<-|H]; [cbn; lia|]). all: try contradiction.
  - cbn. lia.
Qed.

(** X12.  The text that [{{name}}] writes holds none of the characters angle
    brackets, quotes, slash, backquote and equals sign: [escapeHtml] has
    replaced each by an entity, and no entity holds one. Text without any of
    the replaced characters comes out as it is, and the escaping works piece
    by piece. *)
Theorem X12_escapeHtml_leaves_no_markup (s : jstring) :
  forallb (fun c => negb (markup c)) (escapeHtml s) = true
  /\ (forallb (fun c => negb (special c)) s = true -> escapeHtml s = s)
  /\ (forall t, escapeHtml (s ++ t) = escapeHtml s ++ escapeHtml t)
  /\ List.length s <= List.length (escapeHtml s).
Proof.
  split; [|split; [|split]].
  - induction s as [|c s IH]; [reflexivity|].
    change (escapeHtml (c :: s))
      with ((match entity c with Some e => e | None => [c] end) ++ escapeHtml s).
    rewrite forallb_app, IH, andb_true_r.
    pose proof (entity_cases c) as H. destruct (entity c) as [e|].
    + destruct H as [_ H]. cbn in H.
      repeat (destruct H as [<-|H]; [reflexivity|]). destruct H.
    + destruct H as (_ & H & _). cbn [forallb]. now rewrite H.
  - induction s as [|c s IH]; [reflexivity|].
    cbn [forallb]. intros H. apply andb_prop in H as [Hc Hs].
    change (escapeHtml (c :: s))
      with ((match entity c with Some e => e | None => [c] end) ++ escapeHtml s).
    rewrite (IH Hs). unfold special in Hc. destruct (entity c); [discriminate|reflexivity].
  - intros t. apply escapeHtml_app.
  - apply escapeHtml_length.
Qed.

Lemma X12_escapeHtml_leaves_no_markup_witness :
  escapeHtml (js "Main St 10") = js "Main St 10".
Proof.
  apply (proj1 (proj2 (X12_escapeHtml_leaves_no_markup (js "Main St 10")))). reflexivity.
Defined.

Lemma escapeHtml_grows (s : jstring) :
  existsb special s = true ->
  List.length s < List.length (escapeHtml s) /\ existsb special (escapeHtml s) = true.
Proof.
  induction s as [|c s IH]; [discriminate|].
  change (escapeHtml (c :: s))
    with ((match entity c with Some e => e | None => [c] end) ++ escapeHtml s).
  cbn [existsb]. rewrite existsb_app, length_app. cbn [List.length].
  pose proof (entity_cases c) as H. destruct (entity c) as [e|].
  - destruct H as [_ H]. intros _.
    pose proof (escapeHtml_length s) as Hl.
    cbn in H.
    repeat (destruct H as [<-|H]; [split; [cbn; lia|reflexivity]|]). all: try contradiction.
  - destruct H as (-> & _). cbn [orb]. intros H. apply IH in H as [H1 H2].
    split; [cbn; lia|]. rewrite H2. apply orb_true_r.
Qed.

(** X13.  Escaping is not idempotent: text that holds one of the replaced
    characters is escaped into text that holds an ampersand, which a second
    escaping replaces again. *)
Theorem X13_escapeHtml_twice (s : jstring) :
  existsb special s = true ->
  escapeHtml (escapeHtml s) <> escapeHtml s.
Proof.
  intros H. apply escapeHtml_grows in H as [_ H].
  apply escapeHtml_grows in H as [H _]. intros E. rewrite E in H. lia.
Qed.

Lemma X13_escapeHtml_twice_witness :
  escapeHtml (js "A&B") = js "A&amp;B"
  /\ escapeHtml (escapeHtml (js "A&B")) <> escapeHtml (js "A&B").
Proof.
  split; [reflexivity|]. apply (X13_escapeHtml_twice (js "A&B")). reflexivity.
Defined.

(** ** How far a match reaches *)


Lemma reaches_refl (st : mstate) : reaches st st.
Proof. exists 0. repeat split; [lia|lia]. Qed.

Lemma reaches_trans (a b c : mstate) : reaches a b -> reaches b c -> reaches a c.
Proof.
  intros (k & Hk & Hf & Hs) (k' & Hk' & Hf' & Hs').
  exists (k + k'). rewrite Hs in Hk', Hs'. rewrite length_skipn in Hk'.
  repeat split; [lia|lia|].
  rewrite Hs'. rewrite skipn_skipn. f_equal. lia.
Qed.

Lemma iter_star_reaches (step : mstate -> list mstate) :
  (forall st st', In st' (step st) -> reaches st st') ->
  forall n st st', In st' (iter_star step n st) -> reaches st st'.
Proof.
  intros Hstep. induction n as [|n IH]; intros st st' Hin; cbn [iter_star] in Hin.
  - destruct Hin as [<-|[]]. apply reaches_refl.
  - apply in_app_or in Hin as [Hin|[<-|[]]]; [|apply reaches_refl].
    apply in_flat_map in Hin as (mid & Hmid & Hin).
    destruct (fst mid =? fst st); [destruct Hin|].
    eapply reaches_trans; [apply Hstep; exact Hmid|apply IH; exact Hin].
Qed.

Lemma rmatch_reaches (r : regex) :
  forall st st', In st' (rmatch r st) -> reaches st st'.
Proof.
  induction r as [|p|a IHa b IHb|a IHa b IHb|a IHa| |]; intros st st' Hin;
    cbn [rmatch] in Hin.
  - destruct Hin as [<-|[]]. apply reaches_refl.
  - destruct st as [q s]. cbn [snd fst] in Hin. destruct s as [|c s]; [destruct Hin|].
    destruct (p c); [|destruct Hin]. destruct Hin as [<-|[]].
    exists 1. cbn. repeat split; lia.
  - apply in_flat_map in Hin as (mid & Hmid & Hin).
    eapply reaches_trans; [apply IHa; exact Hmid|apply IHb; exact Hin].
  - apply in_app_or in Hin as [Hin|Hin]; [now apply IHa|now apply IHb].
  - eapply iter_star_reaches; [exact IHa|exact Hin].
  - destruct (fst st =? 0); [|destruct Hin]. destruct Hin as [<-|[]]. apply reaches_refl.
  - destruct (snd st); [|destruct Hin]. destruct Hin as [<-|[]]. apply reaches_refl.
Qed.

Lemma match_at_bound (r : regex) (q : nat) (s : jstring) (e : nat) :
  match_at r q s = Some e -> q <= e <= q + List.length s.
Proof.
  unfold match_at. destruct (rmatch r (q, s)) as [|[e' s'] l] eqn:E; [discriminate|].
  intros H; inversion H; subst e'.
  destruct (@rmatch_reaches r (q, s) (e, s')) as (k & Hk & Hf & _).
  - rewrite E. now left.
  - cbn in *. lia.
Qed.

Lemma exec_from_bound (r : regex) (s : jstring) (q i e : nat) :
  exec_from r q s = Some (i, e) ->
  q <= i /\ i <= e /\ e <= q + List.length s.
Proof.
  revert q. induction s as [|c s IH]; intros q; cbn [exec_from].
  - destruct (match_at r q []) as [e'|] eqn:E; [|discriminate].
    intros H; inversion H; subst. apply match_at_bound in E. cbn in E. lia.
  - destruct (match_at r q (c :: s)) as [e'|] eqn:E.
    + intros H; inversion H; subst. apply match_at_bound in E. cbn in *. lia.
    + intros H. apply IH in H. cbn. lia.
Qed.

(** ** The scanner *)

Lemma scan_keeps (re : regex) (sc : Scanner) :
  tail sc = fst (scan re sc) ++ tail (snd (scan re sc))
  /\ pos (snd (scan re sc)) = pos sc + List.length (fst (scan re sc)).
Proof.
  unfold scan. destruct (re_exec re (tail sc)) as [[i e]|] eqn:E.
  - destruct i as [|i]; cbn [fst snd tail pos].
    + apply exec_from_bound in E. rewrite firstn_skipn, length_firstn.
      split; [reflexivity|]. rewrite Nat.min_l; [reflexivity|]. cbn in E. apply E.
    + split; [reflexivity|cbn; lia].
  - cbn. split; [reflexivity|lia].
Qed.

Lemma scanUntil_keeps (re : regex) (sc : Scanner) :
  tail sc = fst (scanUntil re sc) ++ tail (snd (scanUntil re sc))
  /\ pos (snd (scanUntil re sc)) = pos sc + List.length (fst (scanUntil re sc)).
Proof.
  unfold scanUntil, re_search. destruct (re_exec re (tail sc)) as [[i e]|] eqn:E.
  - destruct i as [|i]; cbn [fst snd tail pos].
    + split; [reflexivity|cbn; lia].
    + apply exec_from_bound in E. rewrite firstn_skipn, length_firstn.
      split; [reflexivity|]. rewrite Nat.min_l; [reflexivity|]. cbn in E. lia.
  - cbn [fst snd tail pos]. now rewrite app_nil_r.
Qed.

(** X14.  [scan] and [scanUntil] split the tail into the text they return
    and the new tail, and advance [pos] by the length of that text: the
    scanner neither loses nor invents a code unit, and [pos] is the number
    of code units that lie behind it. A [scan] that matches nothing leaves
    the scanner as it is, and at the end of the string nothing is scanned. *)
Theorem X14_scanner_keeps_the_text (re : regex) (sc : Scanner) :
  (tail sc = fst (scan re sc) ++ tail (snd (scan re sc))
   /\ pos (snd (scan re sc)) = pos sc + List.length (fst (scan re sc)))
  /\ (tail sc = fst (scanUntil re sc) ++ tail (snd (scanUntil re sc))
      /\ pos (snd (scanUntil re sc)) = pos sc + List.length (fst (scanUntil re sc)))
  /\ (fst (scan re sc) = [] -> snd (scan re sc) = sc)
  /\ (eos sc = true -> scan re sc = ([], sc) /\ fst (scanUntil re sc) = []).
Proof.
  split; [apply scan_keeps|]. split; [apply scanUntil_keeps|]. split.
  - unfold scan. destruct (re_exec re (tail sc)) as [[i e]|] eqn:E; [|reflexivity].
    destruct i as [|i]; [|reflexivity]. cbn [fst snd].
    intros H. apply exec_from_bound in E.
    assert (He : e = 0).
    { apply (f_equal (@List.length N)) in H. rewrite length_firstn in H.
      rewrite Nat.min_l in H by (cbn in E; apply E). exact H. }
    subst e. destruct sc as [t p]. cbn. f_equal. lia.
  - unfold eos. destruct sc as [[|c t] p]; [|discriminate]. intros _.
    unfold scan, scanUntil, re_search. cbn [tail].
    destruct (re_exec re []) as [[i e]|] eqn:E; [|split; reflexivity].
    apply exec_from_bound in E. cbn in E.
    assert (i = 0) by lia. assert (e = 0) by lia. subst. cbn.
    split; [|reflexivity]. f_equal. f_equal. lia.
Qed.

(** ** The loop of [parseTemplate] *)

Lemma scan_splits (re : regex) (sc : Scanner) (x : jstring) (sc' : Scanner) :
  scan re sc = (x, sc') ->
  tail sc = x ++ tail sc' /\ pos sc' = pos sc + List.length x.
Proof. intros H. pose proof (scan_keeps re sc) as K. now rewrite H in K. Qed.

Lemma scanUntil_splits (re : regex) (sc : Scanner) (x : jstring) (sc' : Scanner) :
  scanUntil re sc = (x, sc') ->
  tail sc = x ++ tail sc' /\ pos sc' = pos sc + List.length x.
Proof. intros H. pose proof (scanUntil_keeps re sc) as K. now rewrite H in K. Qed.

Lemma scan_left (re : regex) (sc : Scanner) (x : jstring) (sc' : Scanner) :
  scan re sc = (x, sc') ->
  List.length (tail sc') + List.length x = List.length (tail sc).
Proof. intros H. apply scan_splits in H as [-> _]. rewrite length_app. lia. Qed.

Lemma scanUntil_left (re : regex) (sc : Scanner) (x : jstring) (sc' : Scanner) :
  scanUntil re sc = (x, sc') ->
  List.length (tail sc') + List.length x = List.length (tail sc).
Proof. intros H. apply scanUntil_splits in H as [-> _]. rewrite length_app. lia. Qed.

(** What a run of text leaves alone. *)
Lemma text_char_keeps (st : pstate) (chr : char) (start : nat) :
  scanner (text_char st chr start) = scanner st
  /\ sections (text_char st chr start) = sections st
  /\ res_tags (text_char st chr start) = res_tags st.
Proof.
  unfold text_char. destruct (N.eqb chr LF); repeat split; reflexivity.
Qed.

Lemma text_run_keeps (value : jstring) (st : pstate) (start : nat) :
  scanner (text_run st value start) = scanner st
  /\ sections (text_run st value start) = sections st
  /\ res_tags (text_run st value start) = res_tags st.
Proof.
  revert st start. induction value as [|c v IH]; intros st start; [repeat split|].
  cbn [text_run]. destruct (IH (text_char st c start) (start + 1)) as (-> & -> & ->).
  apply text_char_keeps.
Qed.

(** A turn of the loop that does not leave it has consumed an opening
    tag. *)
Lemma parse_turn_progress (st st' : pstate) :
  parse_turn st = Ok (inl st') ->
  List.length (tail (scanner st')) < List.length (tail (scanner st)).
Proof.
  unfold parse_turn.
  destruct (scanUntil (openingTagRe (res_tags st)) (scanner st)) as [value sc] eqn:E1.
  apply scanUntil_left in E1.
  pose proof (text_run_keeps value (with_scanner st sc) (pos (scanner st)))
    as (Hs & _ & Ht).
  set (st1 := text_run (with_scanner st sc) value (pos (scanner st))) in *.
  rewrite Hs. cbn [with_scanner scanner].
  destruct (scan (openingTagRe (res_tags st1)) sc) as [opened sc1] eqn:E2.
  apply scan_left in E2.
  destruct opened as [|o opened]; [discriminate|]. cbn [is_empty].
  destruct (scan tagRe sc1) as [ty sc2] eqn:E3. apply scan_left in E3.
  destruct (scan whiteRe sc2) as [w sc3] eqn:E4. apply scan_left in E4.
  set (type := match ty with c :: _ => tag_symbol c | [] => None end).
  set (brace := match ty with c :: _ => N.eqb c 123 | [] => false end).
  lazymatch goal with
  | |- (let '(_, _) := ?X in _) = _ -> _ => set (P := X)
  end.
  assert (Hv : List.length (tail (snd P)) <= List.length (tail sc3)).
  { subst P. destruct type as [[]|];
      try (destruct brace;
           [ destruct (scanUntil (closingCurlyRe (res_tags st1)) sc3) as [a sa] eqn:Ea;
             apply scanUntil_left in Ea;
             destruct (scan curlyRe sa) as [b sb] eqn:Eb; apply scan_left in Eb;
             destruct (scanUntil (closingTagRe (res_tags st1)) sb) as [c sc'] eqn:Ec;
             apply scanUntil_left in Ec; cbn [snd]; lia
           | destruct (scanUntil (closingTagRe (res_tags st1)) sc3) as [a sa] eqn:Ea;
             apply scanUntil_left in Ea; cbn [snd]; lia ]).
    destruct (scanUntil equalsRe sc3) as [a sa] eqn:Ea. apply scanUntil_left in Ea.
    destruct (scan equalsRe sa) as [b sb] eqn:Eb. apply scan_left in Eb.
    destruct (scanUntil (closingTagRe (res_tags st1)) sb) as [c sc'] eqn:Ec.
    apply scanUntil_left in Ec. cbn [snd]. lia. }
  clearbody P. destruct P as [value' sc4]. cbn [snd] in Hv.
  destruct (scan (closingTagRe (res_tags st1)) sc4) as [closed sc5] eqn:E6.
  apply scan_left in E6.
  destruct (is_empty closed); [discriminate|].
  cbn [List.length] in E2.
  assert (Hlt : List.length (tail sc5) < List.length (tail (scanner st))) by lia.
  clear - Hlt.
  destruct (match type with Some s => s | None => SName end);
    try (intros H; inversion H; subst; exact Hlt).
  - destruct (sections st1) as [|openSection rest]; [discriminate|].
    destruct (jeqb (f_value openSection) value'); [|discriminate].
    intros H; inversion H; subst; exact Hlt.
  - destruct (compileTags value'); [|discriminate].
    intros H; inversion H; subst; exact Hlt.
Qed.

Lemma parse_turn_errors (st : pstate) : parse_turn st <> Throw OutOfFuel.
Proof.
  unfold parse_turn.
  repeat lazymatch goal with
         | |- (let '(_, _) := ?X in _) <> _ => destruct X
         | |- (if ?b then _ else _) <> _ => destruct b
         end; try discriminate.
  cbv zeta.
  repeat lazymatch goal with
         | |- match ?x with _ => _ end <> _ => destruct x
         | |- Result.bind ?x _ <> _ => unfold compileTags
         end; try discriminate.
  destruct (firstn 2 (re_split spaceRe l3)) as [|o [|c [|x l']]]; discriminate.
Qed.

Lemma parse_loop_terminates (n : nat) (st : pstate) :
  List.length (tail (scanner st)) <= n -> parse_loop n st <> Throw OutOfFuel.
Proof.
  revert st. induction n as [|n IH]; intros st Hn; cbn [parse_loop]; unfold eos.
  - destruct (tail (scanner st)); [discriminate|cbn in Hn; lia].
  - destruct (tail (scanner st)) eqn:Et; [discriminate|]. cbn [is_empty].
    destruct (parse_turn st) as [[st'|st']|e] eqn:E; cbn [Result.bind].
    + apply IH. apply parse_turn_progress in E. rewrite Et in E. cbn in *. lia.
    + discriminate.
    + intros H. inversion H; subst. now apply (@parse_turn_errors st).
Qed.

Lemma nest_loop_errors (tokens : list ftoken) (collector : list token)
  (sections : list (ftoken * list token)) :
  nest_loop tokens collector sections <> Throw OutOfFuel.
Proof.
  revert collector sections. induction tokens as [|t ts IH]; intros collector sections;
    cbn [nest_loop]; [discriminate|].
  destruct (f_type t); try apply IH.
  destruct sections as [|[section outer] sections']; [discriminate|apply IH].
Qed.

(** X15.  The loop of [parseTemplate] terminates: a turn that does not leave
    the loop has consumed at least the opening tag, so the tail of the
    scanner gets shorter with every turn, and the parser returns its tokens
    or throws one of its own errors -- it never needs more turns than the
    template has code units. *)
Theorem X15_parseTemplate_terminates (template : jstring) (tags : jstring * jstring) :
  (forall st st', parse_turn st = Ok (inl st') ->
     List.length (tail (scanner st')) < List.length (tail (scanner st)))
  /\ parseTemplateWith template tags <> Throw OutOfFuel
  /\ parse template <> Throw OutOfFuel.
Proof.
  assert (H : forall tags, parseTemplateWith template tags <> Throw OutOfFuel).
  { clear tags. intros tags. unfold parseTemplateWith.
    destruct (is_empty template); [discriminate|].
    match goal with
    | |- Result.bind (parse_loop ?n ?st) _ <> _ =>
        pose proof (@parse_loop_terminates n st) as Hl;
        destruct (parse_loop n st) as [st'|e]
    end; cbn [Result.bind].
    - destruct (sections (stripSpace st')); [apply nest_loop_errors|discriminate].
    - intros E. inversion E; subst. apply Hl; [cbn; lia|reflexivity]. }
  split; [exact parse_turn_progress|]. split; [apply H|apply H].
Qed.

(** ** Text without tags *)

Lemma text_char_plain (st : pstate) (chr : char) (start : nat) :
  hasTag st = false ->
  hasTag (text_char st chr start) = false
  /\ tokens (text_char st chr start)
     = tokens st ++ [Some (FTok SText [chr] start (start + 1) None)].
Proof.
  intros H. unfold text_char. destruct (N.eqb chr LF); cbn; rewrite ?H; split; reflexivity.
Qed.

Lemma text_run_plain (value : jstring) (st : pstate) (start : nat) :
  hasTag st = false ->
  hasTag (text_run st value start) = false
  /\ tokens (text_run st value start) = tokens st ++ chars value start.
Proof.
  revert st start. induction value as [|c v IH]; intros st start H.
  - cbn. now rewrite app_nil_r.
  - cbn [text_run chars].
    destruct (text_char_plain st c start H) as [H1 H2].
    destruct (IH (text_char st c start) (start + 1) H1) as [H3 H4].
    split; [exact H3|]. rewrite H4, H2, <- app_assoc. reflexivity.
Qed.

Lemma squash_chars (value : jstring) (start : nat) (done : list ftoken)
  (acc : jstring) (s0 : nat) :
  squash_loop (chars value start) done (Some (FTok SText acc s0 start None))
  = done ++ [FTok SText (acc ++ value) s0 (start + List.length value) None].
Proof.
  revert start acc. induction value as [|c v IH]; intros start acc.
  - cbn. now rewrite app_nil_r, Nat.add_0_r.
  - cbn [chars squash_loop f_type symbol_eqb andb f_value f_start f_end f_partial].
    rewrite IH. rewrite <- app_assoc. cbn [List.length app].
    do 3 f_equal. lia.
Qed.

Lemma parse_plain (c : char) (t : jstring) :
  re_test opening (c :: t) = false ->
  parse (c :: t) = Ok [Tag SText (c :: t) 0 (S (List.length t))].
Proof.
  intros Hno.
  assert (Hsearch : re_search opening (c :: t) = None).
  { unfold re_test in Hno. unfold re_search. destruct (re_exec opening (c :: t)) as [[i e]|];
      [discriminate|reflexivity]. }
  unfold parse, parseTemplateWith. cbn [is_empty].
  set (st0 := {| scanner := {| tail := c :: t; pos := 0 |};
                 tokens := []; sections := []; spaces := [];
                 hasTag := false; nonSpace := false; lineHasNonSpace := false;
                 indentation := []; tagIndex := 0;
                 res_tags := compileTagPair (fst default_tags) (snd default_tags) |}).
  set (sc1 := {| tail := []; pos := 0 + List.length (c :: t) |}).
  set (st1 := text_run (with_scanner st0 sc1) (c :: t) 0).
  assert (Hturn : parse_turn st0 = Ok (inr st1)).
  { unfold parse_turn. cbn [scanner st0 res_tags pos].
    unfold scanUntil. cbn [tail]. fold opening. rewrite Hsearch. cbv zeta. cbn [pos].
    fold sc1. fold st1.
    destruct (text_run_keeps (c :: t) (with_scanner st0 sc1) 0) as (Hs & _ & Ht).
    fold st1 in Hs, Ht. rewrite Hs, Ht. reflexivity. }
  cbn [parse_loop List.length]. unfold eos. cbn [scanner st0 tail is_empty].
  rewrite Hturn. cbn [Result.bind].
  destruct (text_run_keeps (c :: t) (with_scanner st0 sc1) 0) as (_ & Hsec & _).
  destruct (@text_run_plain (c :: t) (with_scanner st0 sc1) 0 eq_refl) as (Htag & Htok).
  fold st1 in Hsec, Htag, Htok.
  unfold stripSpace at 1. cbn [sections]. rewrite Hsec. cbn [with_scanner sections st0].
  unfold stripSpace. cbn [tokens]. rewrite Htag. cbn [andb]. rewrite Htok.
  cbn [with_scanner tokens st0 app chars].
  unfold squashTokens. cbn [squash_loop].
  change (0 + 1) with 1. rewrite squash_chars. cbn [app].
  unfold nestTokens. cbn. do 3 f_equal. 
Qed.

(** X16.  A template in which the scanner finds no opening tag is one text
    token, and renders as itself whatever the view and the partials. *)
Theorem X16_plain_text_renders_as_itself (template : jstring) (view : value)
  (partials : Partials) (fuel : nat) :
  re_test opening template = false ->
  parse template
  = Ok (match template with
        | [] => []
        | _ :: _ => [Tag SText template 0 (List.length template)]
        end)
  /\ render (S fuel) template view partials = Ok template.
Proof.
  intros Hno. destruct template as [|c t].
  - split; reflexivity.
  - pose proof (@parse_plain c t Hno) as Hp. split; [exact Hp|].
    unfold render, renderIn. rewrite Hp. cbn [Result.bind]. reflexivity.
Qed.

Lemma X16_plain_text_renders_as_itself_witness :
  render 1 (js "10 Main St, Springfield") VNull None = Ok (js "10 Main St, Springfield").
Proof.
  apply (@X16_plain_text_renders_as_itself (js "10 Main St, Springfield") VNull None 0).
  vm_compute. reflexivity.
Defined.

(** ** The writer *)

Section Writer.
Variables (fuel : nat) (partials : Partials).

Let inner := Notions.inner fuel partials.
Let subRender := Notions.subRender fuel partials.




(** X18.  An inverted section renders its children, in the context of the
    section, exactly when the value is falsy or an empty list, and nothing
    otherwise; a section renders nothing exactly when the value is falsy. So
    for every value but the empty list one of the two is silent and the
    other is not. *)
Theorem X18_renderInverted_complements (name : jstring) (start finish close : nat)
  (children : list token) (context : Context) (template : jstring) (v : value)
  (type : symbol) :
  lookup context name = Ok v ->
  let silent := truthy v && negb (match v with VArray [] => true | _ => false end) in
  let inverted :=
    renderInverted inner (Section type name start finish children close)
                   context template in
  let section :=
    renderSection inner subRender (Section type name start finish children close)
                  context template in
  (silent = true -> inverted = Ok None)
  /\ (silent = false ->
      inverted = Result.bind (inner children context template)
                             (fun buffer => Ok (Some buffer)))
  /\ (section = Ok None <-> truthy v = false)
  /\ (v <> VArray [] -> (inverted = Ok None <-> section <> Ok None)).
Proof.
  intros Hl silent inverted section.
  assert (Hi : inverted = if silent then Ok None
                          else Result.bind (inner children context template)
                                           (fun buffer => Ok (Some buffer))).
  { subst inverted silent. unfold renderInverted. rewrite Hl. cbn [Result.bind].
    destruct (truthy v); cbn [negb andb orb]; [|reflexivity].
    destruct v as [| | | | |[|x l]| |]; reflexivity. }
  assert (Hs : section = Ok None <-> truthy v = false).
  { subst section. unfold renderSection. rewrite Hl. cbn [Result.bind].
    destruct (truthy v) eqn:Ht; cbn [negb].
    - split; [|discriminate]. intros H. exfalso.
      destruct v; cbn [truthy] in Ht; try discriminate;
        repeat match type of H with
               | context [Result.bind ?x _] => destruct x; cbn [Result.bind] in H
               | context [if ?x then _ else _] => destruct x
               end; discriminate.
    - split; reflexivity. }
  split; [|split; [|split]].
  - intros E. now rewrite Hi, E.
  - intros E. now rewrite Hi, E.
  - exact Hs.
  - intros Hne. rewrite Hs, Hi. subst silent.
    destruct (truthy v) eqn:Ht; cbn [andb].
    + assert (E : match v with VArray [] => true | _ => false end = false).
      { destruct v as [| | | | |[|x l]| |]; try reflexivity. now contradiction Hne. }
      rewrite E. cbn [negb]. split; [discriminate|reflexivity].
    + split; [|intros H; now contradiction H].
      destruct (inner children context template); discriminate.
Qed.
End Writer.

Lemma X18_renderInverted_complements_witness :
  renderInverted (inner 1 None) (Section SCaret (js "items") 0 10 [] 10)
                 itemsContext (js "{{^items}}{{/items}}")
  = Ok None.
Proof.
  destruct (@X18_renderInverted_complements 1 None (js "items") 0 10 10 []
              itemsContext (js "{{^items}}{{/items}}")
              (VArray [VString (js "a"); VString (js "b"); VString (js "c")])
              SCaret eq_refl) as (H & _).
  apply H. reflexivity.
Defined.

(** ** The context *)


(** X19.  A name without a dot is looked up in the innermost view first: a
    view that has the name decides, even when the value it holds is
    [undefined]; a view that lacks it -- an object without the name, and
    every string, number and boolean -- hands over to the enclosing context,
    for a name that objects do not inherit; a view that is [null] or
    [undefined] makes the lookup throw. The name [.] stands for the view
    itself. *)
Theorem X19_lookup_innermost_first (context : Context) (view : value) (name : jstring) :
  jeqb name [dot] = false ->
  dotted name = false ->
  (not_nullish view = false -> lookup (push context view) name = Throw TypeError)
  /\ (hasProperty view name = true ->
      lookup (push context view) name = resolved (getProperty view name))
  /\ (not_nullish view = true -> hasProperty view name = false ->
      isArray view = false -> inherited name = false ->
      lookup (push context view) name = lookup context name)
  /\ lookup (push context view) [dot] = resolved view.
Proof.
  intros Hdot Hdotted.
  assert (Hnull : hasProperty view name = true -> not_nullish view = true)
    by (destruct view; cbn; congruence).
  unfold lookup, push. rewrite Hdot. cbn [lookup_walk]. rewrite Hdotted.
  split; [|split; [|split]].
  - intros ->. reflexivity.
  - intros Hp. rewrite (Hnull Hp). cbn [Result.bind snd fst]. rewrite Hp.
    cbn [Result.bind]. reflexivity.
  - intros Hn Hp _ _. rewrite Hn. cbn [Result.bind snd fst]. rewrite Hp.
    destruct context as [v p]. reflexivity.
  - reflexivity.
Qed.

Lemma X19_lookup_innermost_first_witness :
  lookup (push itemsContext (VString (js "a"))) (js "items")
  = lookup itemsContext (js "items").
Proof.
  destruct (@X19_lookup_innermost_first itemsContext (VString (js "a")) (js "items")
              eq_refl eq_refl) as (_ & _ & H & _).
  apply H; reflexivity.
Defined.

(** ** Dotted names *)

Lemma split_loop_one_first (c : char) (a rest : jstring) (q : nat) (piece : jstring) :
  has_char c a = false ->
  exists q',
    split_loop (Lit [c]) 0 q piece (a ++ c :: rest)
    = (piece ++ a) :: split_loop (Lit [c]) 0 q' [] rest.
Proof.
  revert q piece. induction a as [|y a IH]; intros q piece Ha.
  - cbn [app]. rewrite split_loop_one_cons, N.eqb_refl, app_nil_r. eauto.
  - cbn [app]. rewrite split_loop_one_cons. unfold has_char in Ha. cbn [existsb] in Ha.
    apply orb_false_elim in Ha as [Hy Ha]. rewrite Hy.
    destruct (IH (S q) (piece ++ [y]) Ha) as (q' & ->). exists q'.
    now rewrite <- app_assoc.
Qed.

Lemma split_dotted (a b : jstring) :
  has_char dot a = false -> has_char dot b = false ->
  split_str [dot] (a ++ dot :: b) = [a; b].
Proof.
  intros Ha Hb. unfold split_str, re_split.
  destruct (a ++ dot :: b) as [|x s] eqn:E; [destruct a; discriminate|].
  rewrite <- E. destruct (@split_loop_one_first dot a b 0 [] Ha) as (q' & ->).
  now rewrite split_loop_one_plain.
Qed.

Lemma dotted_app (a b : jstring) : a <> [] -> dotted (a ++ dot :: b) = true.
Proof.
  intros Ha. destruct a as [|x a]; [contradiction|]. cbn [app dotted].
  unfold has_char. rewrite existsb_app. cbn. apply orb_true_r.
Qed.

(** X20.  A name [a.b] is looked up in an object as the property [b] of its
    property [a]: the result is found there when the value under [a] has the
    property [b] -- a field of an object, the length or a code unit of a
    string; when that value is [null] or [undefined] or lacks [b], the
    enclosing context is asked. *)
Theorem X20_lookup_dotted_descends (context : Context) (fields : list (jstring * value))
  (a b : jstring) :
  a <> [] ->
  has_char dot a = false ->
  has_char dot b = false ->
  inherited a = false ->
  inherited b = false ->
  let name := a ++ dot :: b in
  let target := getProperty (VObject fields) a in
  isArray target = false ->
  isFunction target = false ->
  let hit := not_nullish target
             && (hasProperty target b || primitiveHasOwnProperty target b) in
  (hit = true ->
   lookup (push context (VObject fields)) name = resolved (getProperty target b))
  /\ (hit = false ->
      lookup (push context (VObject fields)) name = lookup context name).
Proof.
  intros Ha Hda Hdb _ _ name target _ _ hit.
  assert (Hname : jeqb name [dot] = false).
  { subst name. destruct a as [|x a]; [contradiction|]. cbn [app jeqb].
    destruct (a ++ dot :: b) eqn:E; [destruct a; discriminate|].
    cbn [jeqb]. apply andb_false_r. }
  unfold lookup, push. rewrite Hname. cbn [lookup_walk].
  subst name. rewrite (@dotted_app a b Ha), (@split_dotted a b Hda Hdb).
  cbn [Result.bind descend not_nullish]. fold target.
  subst hit. destruct (not_nullish target); cbn [andb fst snd].
  - destruct (hasProperty target b || primitiveHasOwnProperty target b);
      cbn [Result.bind]; split; try discriminate; intros _; [reflexivity|].
    destruct context as [v p]. reflexivity.
  - split; [discriminate|intros _]. destruct context as [v p]. reflexivity.
Qed.

Lemma X20_lookup_dotted_descends_witness :
  lookup (push itemsContext (VObject [(js "a", VObject [(js "b", VString (js "x"))])]))
         (js "a.b")
  = Ok (VString (js "x")).
Proof.
  destruct (@X20_lookup_dotted_descends itemsContext
              [(js "a", VObject [(js "b", VString (js "x"))])]
              (js "a") (js "b")) as [H _].
  - discriminate.
  - reflexivity.
  - reflexivity.
  - reflexivity.
  - reflexivity.
  - reflexivity.
  - reflexivity.
  - apply H. reflexivity.
Defined.

(** ** Partials *)

Lemma split_str_no_sep (c : char) (s : jstring) :
  has_char c s = false -> s <> [] -> split_str [c] s = [s].
Proof.
  intros Hc Hne. destruct s as [|x s]; [contradiction|].
  unfold split_str, re_split. now rewrite split_loop_one_plain.
Qed.

(** X21.  [indentPartial] puts the blanks of the indentation before the
    lines of a partial: with an indentation that holds no blank the partial
    comes out as it is; a partial of one line gets the blanks in front,
    unless the line of the tag has text before the tag. *)
Theorem X21_indentPartial_indents (partial indentation : jstring) (lineHasNonSpace : bool) :
  (filter is_blank indentation = [] ->
   indentPartial partial indentation lineHasNonSpace = partial)
  /\ (has_char LF partial = false -> partial <> [] ->
      indentPartial partial indentation lineHasNonSpace
      = if lineHasNonSpace then partial else filter is_blank indentation ++ partial).
Proof.
  split.
  - intros Hf. unfold indentPartial. rewrite Hf.
    rewrite <- (join_split_str_one LF partial) at 2. unfold nl. f_equal.
    match goal with
    | |- ?f 0 ?l0 = ?l0 =>
        assert (H : forall xs i, f i xs = xs);
        [|apply H]
    end.
    induction xs as [|x l IH]; intros i; [reflexivity|].
    cbn [app]. rewrite IH.
    now destruct (nonempty x && (negb (i =? 0) || negb lineHasNonSpace)).
  - intros Hc Hne. unfold indentPartial. unfold nl. rewrite split_str_no_sep by assumption.
    cbn [join Nat.eqb negb orb]. destruct partial as [|c p]; [contradiction|].
    cbn [nonempty is_empty negb andb]. now destruct lineHasNonSpace.
Qed.

Lemma X21_indentPartial_indents_witness :
  indentPartial (js "line") [32%N; 120%N; 9%N] false = [32%N; 9%N] ++ js "line".
Proof.
  apply (proj2 (X21_indentPartial_indents (js "line") [32%N; 120%N; 9%N] false)).
  - reflexivity.
  - discriminate.
Defined.
